(** * Visual capture runner: [jules-scratch/verification/verify_ui_ux.py]

    The script drives a headless browser through a fixed list of
    interactions and stores a screenshot after each milestone.  Every call
    it makes is a request to the browser-automation engine, which answers
    by returning or by raising.  The engine and the application under test
    are outside the script, so they appear here as a [world]: a function
    from the history of the run and the request to the answer.  The script
    itself is embedded in a state-and-exception monad whose state is the
    disk (the files written so far) and the log of requests made. *)

From Stdlib Require Import Init.Byte.
From stdpp Require Import base strings list gmap.

Local Open Scope string_scope.
Local Open Scope list_scope.

(** ** Requests, answers, state *)

(** The exceptions the engine and the file system raise. *)
Inductive exn :=
| TimeoutError   (* a wait, click or capture ran into the default timeout *)
| Error          (* any other engine failure, e.g. connection refused *)
| OSError.       (* the image file could not be written *)

(** One constructor per call the script makes. *)
Inductive op :=
| SyncPlaywrightEnter                      (* with sync_playwright() as ... *)
| SyncPlaywrightExit                       (* ... leaving the with block *)
| ChromiumLaunch (headless : bool)         (* playwright.chromium.launch *)
| NewContext                               (* browser.new_context() *)
| NewPage                                  (* context.new_page() *)
| PageGoto (url : string)                  (* page.goto(url) *)
| PageWaitForSelector (sel : string)       (* page.wait_for_selector(sel) *)
| PageScreenshot (path : string)           (* page.screenshot(path=...) *)
| PageLocator (sel : string)               (* page.locator(sel) *)
| LocatorScreenshot (sel path : string)    (* locator.screenshot(path=...) *)
| PageClick (sel : string)                 (* page.click(sel) *)
| LocatorClick (sel : string)              (* locator.click() *)
| BrowserClose.                            (* browser.close() *)

#[global] Instance op_eq_dec : EqDecision op.
Proof. solve_decision. Defined.

(** The engine's answer.  A capture returns the bytes of the image; the
    payload of the other calls is not used by the script. *)
Inductive outcome :=
| Returned (data : list byte)
| Raised (e : exn).

Definition event : Type := op * outcome.

Definition world : Type := list event -> op -> outcome.

Record state := mkState {
  files : gmap string (list byte);
  log : list event
}.

Definition initial (fs : gmap string (list byte)) : state :=
  {| files := fs; log := [] |}.

(** ** The monad *)

Inductive result (A : Type) :=
| Value (a : A)
| Exception (e : exn).
Arguments Value {A} a.
Arguments Exception {A} e.

Definition M (A : Type) : Type := state -> result A * state.

#[global] Instance M_ret : MRet M :=
  fun A (a : A) st => (Value a, st).

#[global] Instance M_bind : MBind M :=
  fun A B (k : A -> M B) (m : M A) st =>
    match m st with
    | (Value a, st1) => k a st1
    | (Exception e, st1) => (Exception e, st1)
    end.

(** Python's [try: body finally: fin].  The finaliser runs on both exits
    of the body; an exception of the finaliser replaces the body's. *)
Definition try_finally {A} (body : M A) (fin : M unit) : M A :=
  fun st =>
    match body st with
    | (r, st1) =>
        match fin st1 with
        | (Value _, st2) => (r, st2)
        | (Exception e, st2) => (Exception e, st2)
        end
    end.

(** The path a capture request writes to. *)
Definition capture_path (o : op) : option string :=
  match o with
  | PageScreenshot path => Some path
  | LocatorScreenshot _ path => Some path
  | _ => None
  end.

Definition write_file (path : string) (data : list byte) : M unit :=
  fun st => (Value tt, {| files := <[path := data]> (files st); log := log st |}).

(** What a request that returned leaves on the disk. *)
Definition effect (o : op) (data : list byte) : M unit :=
  match capture_path o with
  | Some path => write_file path data
  | None => mret tt
  end.

(** ** The objects of the sync API used by the script *)

Inductive Playwright := the_playwright.
Inductive Browser := the_browser.
Inductive BrowserContext := the_context.
Inductive Page := the_page.
Record Locator := mkLocator { selector : string }.

Section Runner.

Variable w : world.

(** Ask the engine, record the request with its answer. *)
Definition call (o : op) : M (list byte) :=
  fun st =>
    let r := w (log st) o in
    let st1 := {| files := files st; log := log st ++ [(o, r)] |} in
    match r with
    | Returned data => (Value data, st1)
    | Raised e => (Exception e, st1)
    end.

Definition invoke (o : op) : M unit :=
  data ← call o; effect o data.

Definition chromium_launch (_ : Playwright) (headless : bool) : M Browser :=
  invoke (ChromiumLaunch headless) ;; mret the_browser.
Definition new_context (_ : Browser) : M BrowserContext :=
  invoke NewContext ;; mret the_context.
Definition new_page (_ : BrowserContext) : M Page :=
  invoke NewPage ;; mret the_page.
Definition browser_close (_ : Browser) : M unit :=
  invoke BrowserClose.

Definition page_goto (_ : Page) (url : string) : M unit :=
  invoke (PageGoto url).
Definition page_wait_for_selector (_ : Page) (sel : string) : M unit :=
  invoke (PageWaitForSelector sel).
Definition page_screenshot (_ : Page) (path : string) : M unit :=
  invoke (PageScreenshot path).
Definition page_locator (_ : Page) (sel : string) : M Locator :=
  invoke (PageLocator sel) ;; mret (mkLocator sel).
Definition page_click (_ : Page) (sel : string) : M unit :=
  invoke (PageClick sel).
Definition locator_screenshot (l : Locator) (path : string) : M unit :=
  invoke (LocatorScreenshot (selector l) path).
Definition locator_click (l : Locator) : M unit :=
  invoke (LocatorClick (selector l)).

(** *** [run], lines 3-37 *)

(** The body of the [try] block, lines 9-34. *)
Definition run_body (page : Page) : M unit :=
  (* 1. Navigate to the app and capture the main page *)
  page_goto page "http://localhost:5173" ;;
  page_wait_for_selector page "text=Visuals" ;;
  page_screenshot page "jules-scratch/verification/01_main_page.png" ;;
  (* 2. Capture the redesigned header *)
  header ← page_locator page "header";
  locator_screenshot header "jules-scratch/verification/02_header.png" ;;
  (* 3. Capture the improved image grid *)
  image_grid ← page_locator page ".grid";
  locator_screenshot image_grid "jules-scratch/verification/03_image_grid.png" ;;
  (* 4. Navigate to the upload form and capture it *)
  page_click page "text=Upload" ;;
  page_wait_for_selector page "text=Upload Images" ;;
  upload_form ← page_locator page "main";
  locator_screenshot upload_form "jules-scratch/verification/04_upload_form.png" ;;
  (* 5. Navigate back to the gallery and open the image modal *)
  page_click page "text=Gallery" ;;
  page_wait_for_selector page ".grid" ;;
  item ← page_locator page ".grid > div:first-child";
  locator_click item ;;
  page_wait_for_selector page "h2" ;;
  modal ← page_locator page "div[role='dialog']";
  locator_screenshot modal "jules-scratch/verification/05_image_modal.png".

Definition run (playwright : Playwright) : M unit :=
  browser ← chromium_launch playwright true;
  context ← new_context browser;
  page ← new_page context;
  try_finally (run_body page) (browser_close browser).

(** *** Module level, lines 39-40 *)

(** [with sync_playwright() as playwright: body].  Entering may raise, and
    then the block is not run; once entered, leaving runs on both exits of
    the block and does not swallow its exception. *)
Definition with_sync_playwright {A} (body : Playwright -> M A) : M A :=
  invoke SyncPlaywrightEnter ;;
  try_finally (body the_playwright) (invoke SyncPlaywrightExit).

Definition main : M unit := with_sync_playwright run.

End Runner.

(** The interpreter ends with status 0 when the module body returns and
    with status 1 on an exception nobody caught. *)
Definition exit_code (r : result unit) : Z :=
  match r with
  | Value _ => 0%Z
  | Exception _ => 1%Z
  end.

(** A whole run of the script as a process: a fresh log, the disk as it
    was found. *)
Definition execute (w : world) (fs : gmap string (list byte)) : result unit * state :=
  main w (initial fs).

Definition trace (w : world) (fs : gmap string (list byte)) : list event :=
  log (snd (execute w fs)).
Definition disk (w : world) (fs : gmap string (list byte)) : gmap string (list byte) :=
  files (snd (execute w fs)).
Definition status (w : world) (fs : gmap string (list byte)) : Z :=
  exit_code (fst (execute w fs)).

(** ** The guarded sequence as data *)

(** The requests of the [try] block in program order. *)
Definition script : list op :=
  [ PageGoto "http://localhost:5173";
    PageWaitForSelector "text=Visuals";
    PageScreenshot "jules-scratch/verification/01_main_page.png";
    PageLocator "header";
    LocatorScreenshot "header" "jules-scratch/verification/02_header.png";
    PageLocator ".grid";
    LocatorScreenshot ".grid" "jules-scratch/verification/03_image_grid.png";
    PageClick "text=Upload";
    PageWaitForSelector "text=Upload Images";
    PageLocator "main";
    LocatorScreenshot "main" "jules-scratch/verification/04_upload_form.png";
    PageClick "text=Gallery";
    PageWaitForSelector ".grid";
    PageLocator ".grid > div:first-child";
    LocatorClick ".grid > div:first-child";
    PageWaitForSelector "h2";
    PageLocator "div[role='dialog']";
    LocatorScreenshot "div[role='dialog']" "jules-scratch/verification/05_image_modal.png" ].

(** The requests made before the [try] block, lines 4-6. *)
Definition acquisition : list op :=
  [ ChromiumLaunch true; NewContext; NewPage ].

(** Run a list of requests one after the other, stopping at the first
    that raises. *)
Fixpoint perform_all (w : world) (ops : list op) : M unit :=
  match ops with
  | [] => mret tt
  | o :: ops' => invoke w o ;; perform_all w ops'
  end.

(** The events such a run adds to a log [tr]. *)
Fixpoint replay (w : world) (tr : list event) (ops : list op) : list event :=
  match ops with
  | [] => []
  | o :: ops' =>
      match w tr o with
      | Returned data =>
          (o, Returned data) :: replay w (tr ++ [(o, Returned data)]) ops'
      | Raised e => [(o, Raised e)]
      end
  end.

(** The result a sequence of events stands for: the first exception. *)
Fixpoint verdict (evs : list event) : result unit :=
  match evs with
  | [] => Value tt
  | (_, Raised e) :: _ => Exception e
  | (_, Returned _) :: evs' => verdict evs'
  end.

(** What one event, and a sequence of events, leaves on the disk. *)
Definition store (fs : gmap string (list byte)) (ev : event) : gmap string (list byte) :=
  match ev with
  | (o, Returned data) =>
      match capture_path o with
      | Some path => <[path := data]> fs
      | None => fs
      end
  | (_, Raised _) => fs
  end.

Definition files_after (evs : list event) (fs : gmap string (list byte)) :
    gmap string (list byte) :=
  foldl store fs evs.

(** A cleanup request that raises replaces the result so far. *)
Definition after (r : outcome) (sofar : result unit) : result unit :=
  match r with
  | Returned _ => sofar
  | Raised e => Exception e
  end.

(** The form of the events of a sequential run of [ops]: answers in
    program order, all returned except possibly the last, and nothing
    after a request that raised. *)
Inductive sequential : list op -> list event -> result unit -> Prop :=
| seq_done : sequential [] [] (Value tt)
| seq_returned o data ops evs r :
    sequential ops evs r ->
    sequential (o :: ops) ((o, Returned data) :: evs) r
| seq_raised o e ops :
    sequential (o :: ops) [(o, Raised e)] (Exception e).

(** The three ways a process of the script goes. *)
Inductive process (fs : gmap string (list byte)) : result unit * state -> Prop :=
| no_playwright e :
    process fs (Exception e, mkState fs [(SyncPlaywrightEnter, Raised e)])
| no_page data evs e rx :
    sequential acquisition evs (Exception e) ->
    process fs
      (after rx (Exception e),
       mkState fs ((SyncPlaywrightEnter, Returned data) :: evs
                     ++ [(SyncPlaywrightExit, rx)]))
| guarded data evs body r rc rx :
    sequential acquisition evs (Value tt) ->
    sequential script body r ->
    process fs
      (after rx (after rc r),
       mkState (files_after body fs)
         ((SyncPlaywrightEnter, Returned data) :: evs ++ body
            ++ [(BrowserClose, rc); (SyncPlaywrightExit, rx)])).

(** ** Observations on a trace *)

Definition executed (o : op) (tr : list event) : Prop :=
  exists r, (o, r) ∈ tr.
Definition succeeded (o : op) (tr : list event) : Prop :=
  exists data, (o, Returned data) ∈ tr.
Definition returned (ev : event) : Prop :=
  exists data, ev.2 = Returned data.

(** The same, computed. *)
Definition is_returned (r : outcome) : bool :=
  match r with
  | Returned _ => true
  | Raised _ => false
  end.

Definition succeededb (o : op) (tr : list event) : bool :=
  bool_decide (Exists (fun ev => ev.1 = o /\ is_returned ev.2 = true) tr).

(** ** Decidable equality *)

#[global] Instance byte_eq_dec : EqDecision byte := Byte.byte_eq_dec.
#[global] Instance exn_eq_dec : EqDecision exn.
Proof. solve_decision. Defined.
#[global] Instance outcome_eq_dec : EqDecision outcome.
Proof. solve_decision. Defined.

(** ** Kinds of requests *)

Inductive kind := Lifecycle | Navigation | Wait | Locate | Capture.

#[global] Instance kind_eq_dec : EqDecision kind.
Proof. solve_decision. Defined.

Definition kind_of (o : op) : kind :=
  match o with
  | PageGoto _ | PageClick _ | LocatorClick _ => Navigation
  | PageWaitForSelector _ => Wait
  | PageLocator _ => Locate
  | PageScreenshot _ | LocatorScreenshot _ _ => Capture
  | _ => Lifecycle
  end.

(** The navigation, wait and capture steps. *)
Definition is_step (o : op) : bool :=
  match kind_of o with
  | Navigation | Wait | Capture => true
  | _ => false
  end.

(** ** The captures and the order of the program *)

(** The paths of the captures of the script, in program order. *)
Definition captures : list string := omap capture_path script.

Abbreviation main_page_png := "jules-scratch/verification/01_main_page.png".
Abbreviation header_png := "jules-scratch/verification/02_header.png".
Abbreviation image_grid_png := "jules-scratch/verification/03_image_grid.png".
Abbreviation upload_form_png := "jules-scratch/verification/04_upload_form.png".
Abbreviation image_modal_png := "jules-scratch/verification/05_image_modal.png".

(** The part of [ops] before the first occurrence of [o]. *)
Fixpoint before (o : op) (ops : list op) : list op :=
  match ops with
  | [] => []
  | o' :: ops' => if decide (o' = o) then [] else o' :: before o ops'
  end.

(** The last wait or navigation step before a step of the script. *)
Definition preceding_step (c : op) : option op :=
  last (filter (fun o => kind_of o = Navigation \/ kind_of o = Wait)
          (before c script)).

(** Every request the program can make, in program order. *)
Definition program : list op :=
  SyncPlaywrightEnter :: acquisition ++ script
    ++ [BrowserClose; SyncPlaywrightExit].

(** ** The disk *)

(** The data the last capture to [p] among [evs] returned. *)
Fixpoint last_write (p : string) (evs : list event) : option (list byte) :=
  match evs with
  | [] => None
  | (o, r) :: evs' =>
      match last_write p evs' with
      | Some data => Some data
      | None =>
          match r, capture_path o with
          | Returned data, Some q => if decide (q = p) then Some data else None
          | _, _ => None
          end
      end
  end.



(** ** Interactions *)

(** The interactions of the specification, section 4.2. *)
Inductive interaction :=
| LoadAddress (url : string)        (* load the application's address *)
| AwaitPresent (what : string)      (* suspend until ... is present *)
| LocateRegion (what : string)      (* locate a region of the page *)
| ClickControl (what : string)      (* trigger a labeled control *)
| ClickItem (what : string).        (* select an item of a region *)

(** The interactions a sequence of requests performs.  A locator that is
    built and clicked at once, as on line 31, is one click on an item;
    captures and the calls of the browser lifecycle are not interactions. *)
Fixpoint interactions (ops : list op) : list interaction :=
  match ops with
  | [] => []
  | PageGoto url :: rest => LoadAddress url :: interactions rest
  | PageWaitForSelector sel :: rest => AwaitPresent sel :: interactions rest
  | PageClick sel :: rest => ClickControl sel :: interactions rest
  | PageLocator sel :: rest =>
      match rest with
      | LocatorClick sel' :: rest' =>
          if decide (sel = sel') then ClickItem sel :: interactions rest'
          else LocateRegion sel :: interactions rest
      | _ => LocateRegion sel :: interactions rest
      end
  | LocatorClick sel :: rest => ClickItem sel :: interactions rest
  | _ :: rest => interactions rest
  end.

(** Follows the words of the specification: the twelve steps of section
    4.2, each with the selector that stands for the marker, region or
    control it names. *)
Definition interaction_sequence : list interaction :=
  [ LoadAddress "http://localhost:5173";    (* load the root address *)
    AwaitPresent "text=Visuals";            (* wait for the marker "Visuals" *)
    LocateRegion "header";                  (* locate the header *)
    LocateRegion ".grid";                   (* locate the grid *)
    ClickControl "text=Upload";             (* click the "Upload" control *)
    AwaitPresent "text=Upload Images";      (* wait for "Upload Images" *)
    LocateRegion "main";                    (* locate the main region *)
    ClickControl "text=Gallery";            (* click the "Gallery" control *)
    AwaitPresent ".grid";                   (* wait for the grid *)
    ClickItem ".grid > div:first-child";    (* click the grid's first child *)
    AwaitPresent "h2";                      (* wait for a secondary heading *)
    LocateRegion "div[role='dialog']" ].    (* locate the dialog region *)

(** ** Worlds used to run the script on concrete inputs *)

(** The first bytes of a PNG image. *)
Definition png : list byte := [x89; x50; x4e; x47; x0d; x0a; x1a; x0a].

(** An application that shows everything the script looks for. *)
Definition ideal : world := fun _ _ => Returned png.

(** The same, except that the request [bad] raises [e]. *)
Definition failing (bad : op) (e : exn) : world :=
  fun _ o => if decide (o = bad) then Raised e else Returned png.

(** The "Upload" control is absent: the click on it times out. *)
Definition no_upload : world := failing (PageClick "text=Upload") TimeoutError.

(** The header is absent: capturing it times out. *)
Definition no_header : world :=
  failing (LocatorScreenshot "header" header_png) TimeoutError.

(** The target is unreachable: the connection is refused. *)
Definition unreachable : world :=
  failing (PageGoto "http://localhost:5173") Error.

(** The heading of the dialog never appears: the last wait times out. *)
Definition no_dialog : world := failing (PageWaitForSelector "h2") TimeoutError.

(** The browser starts, but the page cannot be created. *)
Definition no_page_world : world := failing NewPage Error.

(** ** Further observations on a trace *)

(** The paths of the captures that returned, in the order of the trace. *)
Definition written_paths (tr : list event) : list string :=
  omap (fun ev : event =>
          if is_returned ev.2 then capture_path ev.1 else None) tr.

(** The exceptions raised, in the order of the trace. *)
Definition raised_exns (tr : list event) : list exn :=
  omap (fun ev : event =>
          match ev.2 with
          | Raised e => Some e
          | Returned _ => None
          end) tr.

(** The result of a process read off its trace: the exception raised
    last, if any. *)
Definition result_of (tr : list event) : result unit :=
  match last (raised_exns tr) with
  | Some e => Exception e
  | None => Value tt
  end.

(** The selector of the locator a request acts on. *)
Definition locator_of (o : op) : option string :=
  match o with
  | LocatorScreenshot sel _ => Some sel
  | LocatorClick sel => Some sel
  | _ => None
  end.

(** In the script, the request before a request on a locator builds that
    locator. *)
Definition locator_built (o : op) : bool :=
  match locator_of o with
  | Some sel => bool_decide (last (before o script) = Some (PageLocator sel))
  | None => true
  end.

(** The automation driver cannot be started. *)
Definition no_driver : world := failing SyncPlaywrightEnter Error.

(** The browser cannot be launched. *)
Definition no_browser : world := failing (ChromiumLaunch true) Error.

(** Everything works, but closing the browser raises. *)
Definition close_fails : world := failing BrowserClose Error.

(** * Properties of the model *)

(** ** The run of a list of requests *)

Section Replay.

Variable w : world.

Lemma invoke_returned o st data :
  w (log st) o = Returned data ->
  invoke w o st =
    (Value tt, mkState (store (files st) (o, Returned data))
                 (log st ++ [(o, Returned data)])).
Proof.
  intros Hw. unfold invoke, mbind, M_bind, call. rewrite Hw. simpl.
  unfold effect. destruct (capture_path o); reflexivity.
Qed.

Lemma invoke_raised o st e :
  w (log st) o = Raised e ->
  invoke w o st = (Exception e, mkState (files st) (log st ++ [(o, Raised e)])).
Proof.
  intros Hw. unfold invoke, mbind, M_bind, call. rewrite Hw. reflexivity.
Qed.

Lemma perform_all_replay ops : forall st,
  perform_all w ops st =
    (verdict (replay w (log st) ops),
     mkState (files_after (replay w (log st) ops) (files st))
       (log st ++ replay w (log st) ops)).
Proof.
  induction ops as [|o ops IH]; intros st; simpl.
  - rewrite app_nil_r. destruct st; reflexivity.
  - unfold mbind, M_bind. destruct (w (log st) o) as [data|e] eqn:Hw.
    + rewrite (invoke_returned _ _ _ Hw), IH. simpl.
      rewrite <- app_assoc. reflexivity.
    + rewrite (invoke_raised _ _ _ Hw). reflexivity.
Qed.

Lemma replay_sequential ops : forall tr,
  sequential ops (replay w tr ops) (verdict (replay w tr ops)).
Proof.
  induction ops as [|o ops IH]; intros tr; simpl.
  - constructor.
  - destruct (w tr o) as [data|e]; simpl; constructor. apply IH.
Qed.

Lemma run_body_script page st :
  run_body w page st = perform_all w script st.
Proof.
  unfold run_body, script, perform_all, page_goto, page_wait_for_selector,
    page_screenshot, page_locator, page_click, locator_screenshot,
    locator_click, mbind, M_bind, mret, M_ret.
  repeat (match goal with
          | |- context [invoke w ?o ?s] =>
              destruct (invoke w o s) as [[[]|?] ?]; simpl; try reflexivity
          end).
Qed.

End Replay.

(** ** Every process has one of the three forms *)

Lemma acquire_page w st :
  (x ← chromium_launch w the_playwright true;
   y ← new_context w x;
   new_page w y) st =
  (match verdict (replay w (log st) acquisition) with
   | Value _ => Value the_page
   | Exception e => Exception e
   end,
   mkState (files st) (log st ++ replay w (log st) acquisition)).
Proof.
  unfold chromium_launch, new_context, new_page, acquisition, replay,
    mbind, M_bind, mret, M_ret.
  destruct st as [fs tr]. cbn [log files].
  destruct (w tr (ChromiumLaunch true)) as [d1|e1] eqn:H1.
  2:{ rewrite (invoke_raised w _ (mkState _ _) _ H1). reflexivity. }
  rewrite (invoke_returned w _ (mkState _ _) _ H1). cbn [log files store capture_path].
  destruct (w (tr ++ [(ChromiumLaunch true, Returned d1)]) NewContext)
    as [d2|e2] eqn:H2.
  2:{ rewrite (invoke_raised w _ (mkState _ _) _ H2). cbn [log files verdict].
      rewrite <- app_assoc. reflexivity. }
  rewrite (invoke_returned w _ (mkState _ _) _ H2). cbn [log files store capture_path].
  destruct (w ((tr ++ [(ChromiumLaunch true, Returned d1)])
                 ++ [(NewContext, Returned d2)]) NewPage) as [d3|e3] eqn:H3.
  2:{ rewrite (invoke_raised w _ (mkState _ _) _ H3). cbn [log files verdict].
      rewrite <- !app_assoc. reflexivity. }
  rewrite (invoke_returned w _ (mkState _ _) _ H3). cbn [log files store capture_path verdict].
  rewrite <- !app_assoc. reflexivity.
Qed.

Lemma finaliser w o st :
  capture_path o = None ->
  invoke w o st =
    (after (w (log st) o) (Value tt),
     mkState (files st) (log st ++ [(o, w (log st) o)])).
Proof.
  intros Hc. destruct (w (log st) o) as [d|e] eqn:Hw.
  - rewrite (invoke_returned _ _ _ _ Hw). simpl. rewrite Hc. reflexivity.
  - rewrite (invoke_raised _ _ _ _ Hw). reflexivity.
Qed.

Lemma finally_after (rc : outcome) (r : result unit) (s : state) :
  match after rc (Value tt) with
  | Value _ => (r, s)
  | Exception e => (Exception e, s)
  end = (after rc r, s).
Proof. destruct rc; reflexivity. Qed.

Theorem execute_process w fs : process fs (execute w fs).
Proof.
  unfold execute, main, with_sync_playwright, initial.
  unfold mbind at 1. unfold M_bind at 1.
  destruct (w [] SyncPlaywrightEnter) as [d0|e0] eqn:H0.
  2:{ rewrite (invoke_raised w SyncPlaywrightEnter (mkState fs []) e0 H0).
      apply no_playwright. }
  rewrite (invoke_returned w SyncPlaywrightEnter (mkState fs []) d0 H0).
  cbn [log files store capture_path app].
  set (st0 := mkState fs [(SyncPlaywrightEnter, Returned d0)]).
  unfold try_finally at 1, run.
  pose proof (acquire_page w st0) as Hacq.
  pose proof (replay_sequential w acquisition (log st0)) as Hseq.
  set (evs := replay w (log st0) acquisition) in *.
  destruct (verdict evs) as [[]|e] eqn:Hv.
  - (* the page exists: the guarded block runs *)
    assert (Hrun :
      (browser ← chromium_launch w the_playwright true;
       context ← new_context w browser;
       page ← new_page w context;
       try_finally (run_body w page) (browser_close w browser)) st0
      = try_finally (run_body w the_page) (browser_close w the_browser)
          (mkState (files st0) (log st0 ++ evs))).
    { unfold mbind, M_bind in *.
      destruct (chromium_launch w the_playwright true st0) as [[b|?] s1];
        [|discriminate].
      destruct (new_context w b s1) as [[c|?] s2]; [|discriminate].
      destruct (new_page w c s2) as [[p|?] s3]; [|discriminate].
      destruct b, p. congruence. }
    rewrite Hrun. unfold try_finally at 1.
    rewrite run_body_script, perform_all_replay. cbn [log files].
    pose proof (replay_sequential w script (log st0 ++ evs)) as Hbody.
    set (body := replay w (log st0 ++ evs) script) in *.
    unfold browser_close. rewrite finaliser by reflexivity.
    cbn [log files].
    set (rc := w ((log st0 ++ evs) ++ body) BrowserClose).
    rewrite finally_after. rewrite finaliser by reflexivity. cbn [log files].
    set (rx := w (((log st0 ++ evs) ++ body) ++ [(BrowserClose, rc)])
                 SyncPlaywrightExit).
    rewrite finally_after. unfold st0. cbn [log files].
    match goal with
    | |- process _ (_, mkState _ ?l) =>
        replace l
          with ((SyncPlaywrightEnter, Returned d0) :: evs ++ body
                  ++ [(BrowserClose, rc); (SyncPlaywrightExit, rx)])
          by (rewrite <- !app_assoc; reflexivity)
    end.
    apply guarded; assumption.
  - (* no page: the guarded block is never entered *)
    assert (Hrun :
      (browser ← chromium_launch w the_playwright true;
       context ← new_context w browser;
       page ← new_page w context;
       try_finally (run_body w page) (browser_close w browser)) st0
      = (Exception e, mkState (files st0) (log st0 ++ evs))).
    { unfold mbind, M_bind in *.
      destruct (chromium_launch w the_playwright true st0) as [[b|?] s1];
        [|congruence].
      destruct (new_context w b s1) as [[c|?] s2]; [|congruence].
      destruct (new_page w c s2) as [[p|?] s3]; congruence. }
    rewrite Hrun. rewrite finaliser by reflexivity. cbn [log files].
    set (rx := w (log st0 ++ evs) SyncPlaywrightExit).
    rewrite finally_after. unfold st0. cbn [log files].
    match goal with
    | |- process _ (_, mkState _ ?l) =>
        replace l
          with ((SyncPlaywrightEnter, Returned d0) :: evs
                  ++ [(SyncPlaywrightExit, rx)])
          by reflexivity
    end.
    apply no_page. assumption.
Qed.

(** ** Sequential runs *)

Lemma before_unique o pre post :
  o ∉ pre -> before o (pre ++ o :: post) = pre.
Proof.
  induction pre as [|a pre IH]; intros Hn; simpl.
  - rewrite decide_True; reflexivity.
  - apply not_elem_of_cons in Hn as [Hne Hn].
    rewrite decide_False by congruence. f_equal. apply IH, Hn.
Qed.

Lemma NoDup_before o pre post :
  NoDup (pre ++ o :: post) -> before o (pre ++ o :: post) = pre.
Proof.
  intros Hnd. apply before_unique.
  apply NoDup_app in Hnd as (_ & Hd & _).
  intros Hin. apply (Hd o Hin). left.
Qed.

Lemma before_split o ops :
  o ∈ ops -> exists post, ops = before o ops ++ o :: post.
Proof.
  induction ops as [|a ops IH]; intros Hin; [inversion Hin|]. simpl.
  destruct (decide (a = o)) as [->|Hne].
  - exists ops. reflexivity.
  - apply elem_of_cons in Hin as [->|Hin]; [congruence|].
    destruct (IH Hin) as [post Hp]. exists post. simpl. congruence.
Qed.

Lemma sequential_prefix ops evs r :
  sequential ops evs r -> evs.*1 `prefix_of` ops.
Proof.
  induction 1 as [|o data ops evs r _ IH|o e ops]; simpl.
  - reflexivity.
  - apply prefix_cons, IH.
  - apply prefix_cons, prefix_nil.
Qed.

Lemma sequential_value ops evs :
  sequential ops evs (Value tt) -> evs.*1 = ops /\ Forall returned evs.
Proof.
  remember (Value tt) as r eqn:Hr.
  induction 1 as [|o data ops evs r _ IH|o e ops]; simpl.
  - split; [reflexivity | constructor].
  - destruct (IH Hr) as [Hops Hall]. split.
    + f_equal. exact Hops.
    + constructor; [eexists; reflexivity | exact Hall].
  - discriminate.
Qed.

Lemma sequential_exception ops evs e :
  sequential ops evs (Exception e) ->
  exists pre o post,
    evs = pre ++ [(o, Raised e)] /\ Forall returned pre /\
    ops = pre.*1 ++ o :: post.
Proof.
  remember (Exception e) as r eqn:Hr.
  induction 1 as [|o data ops evs r _ IH|o e' ops]; simpl.
  - discriminate.
  - destruct (IH Hr) as (pre & o' & post & -> & Hall & ->).
    exists ((o, Returned data) :: pre), o', post. repeat split.
    constructor; [eexists; reflexivity | exact Hall].
  - injection Hr as ->. exists [], o, ops. repeat split. constructor.
Qed.

Lemma returned_not_raised pre o e :
  Forall returned pre -> (o, Raised e) ∉ pre.
Proof.
  intros Hall Hin. rewrite Forall_forall in Hall.
  destruct (Hall _ Hin) as [data Hd]. discriminate.
Qed.

(** A request that raised is the last of its run, its exception is the
    result of the run, and everything before it returned. *)
Lemma sequential_raised ops evs r o e :
  sequential ops evs r -> (o, Raised e) ∈ evs ->
  r = Exception e /\
  exists pre post,
    evs = pre ++ [(o, Raised e)] /\ Forall returned pre /\
    ops = pre.*1 ++ o :: post.
Proof.
  intros Hseq Hin. destruct r as [[]|e'].
  - apply sequential_value in Hseq as [_ Hall].
    destruct (returned_not_raised _ _ _ Hall Hin).
  - destruct (sequential_exception _ _ _ Hseq)
      as (pre & o' & post & -> & Hall & ->).
    apply elem_of_app in Hin as [Hin|Hin].
    + destruct (returned_not_raised _ _ _ Hall Hin).
    + apply list_elem_of_singleton in Hin. injection Hin as -> ->.
      split; [reflexivity|]. exists pre, post. repeat split. exact Hall.
Qed.

Lemma sequential_executed ops evs r ev :
  sequential ops evs r -> ev ∈ evs -> ev.1 ∈ ops.
Proof.
  intros Hseq Hin. destruct (sequential_prefix _ _ _ Hseq) as [k ->].
  apply elem_of_app. left. apply list_elem_of_fmap. eauto.
Qed.

(** Events that returned are their requests paired with the data. *)
Lemma returned_zip pre :
  Forall returned pre ->
  exists ds, length ds = length pre /\
    pre = zip_with (fun o d => (o, Returned d)) pre.*1 ds.
Proof.
  induction 1 as [|[o r] pre [data Hd] _ (ds & Hlen & Hz)].
  - exists []. split; reflexivity.
  - simpl in Hd. subst r. exists (data :: ds). split; [simpl; congruence|].
    change (((o, Returned data) :: pre).*1) with (o :: pre.*1).
    simpl. f_equal. exact Hz.
Qed.

Lemma NoDup_script : NoDup script.
Proof. apply (bool_decide_unpack _). vm_compute. exact I. Qed.

Lemma acquisition_script_disjoint o : o ∈ acquisition -> o ∉ script.
Proof.
  revert o. apply Forall_forall.
  apply (bool_decide_unpack _). vm_compute. exact I.
Qed.

(** ** The disk after a run *)

Lemma files_after_app evs1 evs2 fs :
  files_after (evs1 ++ evs2) fs = files_after evs2 (files_after evs1 fs).
Proof. apply foldl_app. Qed.

Lemma files_after_snoc_raised evs o e fs :
  files_after (evs ++ [(o, Raised e)]) fs = files_after evs fs.
Proof. rewrite files_after_app. reflexivity. Qed.

Lemma files_after_no_capture evs : forall fs,
  Forall (fun ev => capture_path ev.1 = None) evs -> files_after evs fs = fs.
Proof.
  induction evs as [|[o r] evs IH]; intros fs Hall; [reflexivity|].
  apply Forall_cons in Hall as [Ho Hall]. simpl in Ho.
  change (files_after evs (store fs (o, r)) = fs).
  unfold store. rewrite Ho. destruct r; apply IH, Hall.
Qed.

Lemma acquisition_no_capture evs r :
  sequential acquisition evs r ->
  Forall (fun ev => capture_path ev.1 = None) evs.
Proof.
  intros Hseq. apply Forall_forall. intros ev Hin.
  pose proof (sequential_executed _ _ _ _ Hseq Hin) as Hop.
  revert Hop. generalize (ev.1). apply Forall_forall.
  repeat constructor.
Qed.

Lemma files_after_lookup p evs : forall fs,
  files_after evs fs !! p =
    match last_write p evs with
    | Some data => Some data
    | None => fs !! p
    end.
Proof.
  induction evs as [|[o r] evs IH]; intros fs; [reflexivity|].
  change (files_after evs (store fs (o, r)) !! p =
          match last_write p ((o, r) :: evs) with
          | Some data => Some data
          | None => fs !! p
          end).
  rewrite IH. simpl. destruct (last_write p evs); [reflexivity|].
  destruct r as [data|e]; [|reflexivity].
  destruct (capture_path o) as [q|]; [|reflexivity].
  destruct (decide (q = p)) as [->|Hne].
  - apply lookup_insert_eq.
  - apply lookup_insert_ne, Hne.
Qed.


Lemma last_write_capture p evs data :
  last_write p evs = Some data ->
  exists o, (o, Returned data) ∈ evs /\ capture_path o = Some p.
Proof.
  induction evs as [|[o r] evs IH]; simpl; [discriminate|].
  destruct (last_write p evs) as [d|].
  - intros Hd. destruct (IH Hd) as (o' & Hin & Hc).
    exists o'. split; [right; exact Hin | exact Hc].
  - destruct r as [d|e]; [|discriminate].
    destruct (capture_path o) as [q|] eqn:Hc; [|discriminate].
    destruct (decide (q = p)) as [->|]; [|discriminate].
    intros [= ->]. exists o. split; [left | exact Hc].
Qed.

Lemma capture_last_write p evs o data :
  (o, Returned data) ∈ evs -> capture_path o = Some p ->
  is_Some (last_write p evs).
Proof.
  induction evs as [|[o' r] evs IH]; intros Hin Hc; [inversion Hin|].
  simpl. apply elem_of_cons in Hin as [Heq|Hin].
  - injection Heq as <- <-. rewrite Hc, decide_True by reflexivity.
    destruct (last_write p evs); eauto.
  - destruct (IH Hin Hc) as [d ->]. eauto.
Qed.

(** ** The captures and their preceding steps *)

Example captures_are :
  captures =
    [ "jules-scratch/verification/01_main_page.png";
      "jules-scratch/verification/02_header.png";
      "jules-scratch/verification/03_image_grid.png";
      "jules-scratch/verification/04_upload_form.png";
      "jules-scratch/verification/05_image_modal.png" ].
Proof. reflexivity. Qed.

Example preceding_steps :
  preceding_step <$> filter (fun o => kind_of o = Capture) script =
    [ Some (PageWaitForSelector "text=Visuals");
      Some (PageWaitForSelector "text=Visuals");
      Some (PageWaitForSelector "text=Visuals");
      Some (PageWaitForSelector "text=Upload Images");
      Some (PageWaitForSelector "h2") ].
Proof. vm_compute. reflexivity. Qed.

(** ** The forms of a trace *)

Lemma run_cases w fs :
  (exists e,
     trace w fs = [(SyncPlaywrightEnter, Raised e)] /\
     disk w fs = fs /\ fst (execute w fs) = Exception e) \/
  (exists data evs e rx,
     sequential acquisition evs (Exception e) /\
     trace w fs =
       (SyncPlaywrightEnter, Returned data) :: evs
         ++ [(SyncPlaywrightExit, rx)] /\
     disk w fs = fs /\ fst (execute w fs) = after rx (Exception e)) \/
  (exists data evs body r rc rx,
     sequential acquisition evs (Value tt) /\
     sequential script body r /\
     trace w fs =
       (SyncPlaywrightEnter, Returned data) :: evs ++ body
         ++ [(BrowserClose, rc); (SyncPlaywrightExit, rx)] /\
     disk w fs = files_after body fs /\
     fst (execute w fs) = after rx (after rc r)).
Proof.
  unfold disk, trace.
  destruct (execute_process w fs)
    as [e | data evs e rx Hseq | data evs body r rc rx Hseq Hbody]; simpl.
  - left. eauto.
  - right. left. exists data, evs, e, rx. auto.
  - right. right. exists data, evs, body, r, rc, rx. auto.
Qed.

Lemma lifecycle_not_script o : kind_of o = Lifecycle -> o ∉ script.
Proof.
  intros Hk Hin. revert o Hin Hk.
  apply (Forall_forall (fun o => kind_of o <> Lifecycle) script).
  apply (bool_decide_unpack _). vm_compute. exact I.
Qed.

(** A request of the script is only ever made inside the guarded block. *)
Lemma script_event w fs ev :
  ev ∈ trace w fs -> ev.1 ∈ script ->
  exists data evs body r rc rx,
    sequential acquisition evs (Value tt) /\
    sequential script body r /\
    ev ∈ body /\
    trace w fs =
      (SyncPlaywrightEnter, Returned data) :: evs ++ body
        ++ [(BrowserClose, rc); (SyncPlaywrightExit, rx)] /\
    disk w fs = files_after body fs /\
    fst (execute w fs) = after rx (after rc r).
Proof.
  intros Hin Hs.
  assert (Hlc : forall r o, ev = (o, r) -> kind_of o = Lifecycle -> False).
  { intros r o -> Hk. exact (lifecycle_not_script o Hk Hs). }
  assert (Hacq : forall evs r, sequential acquisition evs r -> ev ∉ evs).
  { intros evs r Hseq Hev.
    exact (acquisition_script_disjoint _
             (sequential_executed _ _ _ _ Hseq Hev) Hs). }
  destruct (run_cases w fs)
    as [(e & Ht & Hd & Hr)
       |[(data & evs & e & rx & Hseq & Ht & Hd & Hr)
        |(data & evs & body & r & rc & rx & Hseq & Hbody & Ht & Hd & Hr)]].
  - rewrite Ht in Hin. apply list_elem_of_singleton in Hin.
    destruct (Hlc _ _ Hin eq_refl).
  - rewrite Ht in Hin.
    apply elem_of_cons in Hin as [Hin|Hin]; [destruct (Hlc _ _ Hin eq_refl)|].
    apply elem_of_app in Hin as [Hin|Hin]; [destruct (Hacq _ _ Hseq Hin)|].
    apply list_elem_of_singleton in Hin. destruct (Hlc _ _ Hin eq_refl).
  - exists data, evs, body, r, rc, rx. repeat split; try assumption.
    rewrite Ht in Hin.
    apply elem_of_cons in Hin as [Hin|Hin]; [destruct (Hlc _ _ Hin eq_refl)|].
    apply elem_of_app in Hin as [Hin|Hin]; [destruct (Hacq _ _ Hseq Hin)|].
    apply elem_of_app in Hin as [Hin|Hin]; [exact Hin|].
    apply elem_of_cons in Hin as [Hin|Hin]; [destruct (Hlc _ _ Hin eq_refl)|].
    apply list_elem_of_singleton in Hin. destruct (Hlc _ _ Hin eq_refl).
Qed.

(** The trace of a run in which a request of the script raised: what came
    before returned, and the block is left through [browser.close()] and
    the exit of the [with] statement. *)
Lemma failure_tail w fs o e :
  o ∈ script -> (o, Raised e) ∈ trace w fs ->
  exists data evs past rc rx,
    evs.*1 = acquisition /\ Forall returned evs /\
    past.*1 = before o script /\ Forall returned past /\
    trace w fs =
      ((SyncPlaywrightEnter, Returned data) :: evs ++ past)
        ++ [(o, Raised e); (BrowserClose, rc); (SyncPlaywrightExit, rx)] /\
    disk w fs = files_after past fs /\
    fst (execute w fs) = after rx (after rc (Exception e)).
Proof.
  intros Hs Hin.
  destruct (script_event w fs _ Hin Hs)
    as (data & evs & body & r & rc & rx & Hacq & Hbody & Hev & Ht & Hd & Hr).
  destruct (sequential_raised _ _ _ _ _ Hbody Hev)
    as (-> & past & post & -> & Hall & Hsplit).
  destruct (sequential_value _ _ Hacq) as [Hops Hret].
  exists data, evs, past, rc, rx. repeat split; try assumption.
  - pose proof NoDup_script as Hnd. rewrite Hsplit in Hnd.
    rewrite Hsplit at 1. symmetry. apply NoDup_before, Hnd.
  - rewrite Ht. simpl. rewrite <- !app_assoc. reflexivity.
  - rewrite Hd. apply files_after_snoc_raised.
Qed.

(** The trace of a run in which the last request of the script returned:
    every request was made, in program order, and returned. *)
Lemma completion w fs c :
  last script = Some c -> succeeded c (trace w fs) ->
  exists data evs body rc rx,
    evs.*1 = acquisition /\ Forall returned evs /\
    body.*1 = script /\ Forall returned body /\
    trace w fs =
      (SyncPlaywrightEnter, Returned data) :: evs ++ body
        ++ [(BrowserClose, rc); (SyncPlaywrightExit, rx)] /\
    disk w fs = files_after body fs /\
    fst (execute w fs) = after rx (after rc (Value tt)).
Proof.
  intros Hlast [d Hin].
  assert (Hs : c ∈ script).
  { apply last_Some in Hlast as [l ->]. apply elem_of_app. right. left. }
  destruct (script_event w fs _ Hin Hs)
    as (data & evs & body & r & rc & rx & Hacq & Hbody & Hev & Ht & Hd & Hr).
  destruct (sequential_value _ _ Hacq) as [Hops Hret].
  destruct r as [[]|e].
  - destruct (sequential_value _ _ Hbody) as [Hb Hall].
    exists data, evs, body, rc, rx. repeat split; assumption.
  - exfalso.
    destruct (sequential_exception _ _ _ Hbody)
      as (pre & o & post & -> & Hall & Hsplit).
    apply elem_of_app in Hev as [Hev|Hev].
    + pose proof NoDup_script as Hnd.
      apply last_Some in Hlast as [l Hl].
      assert (Hc : c ∈ pre.*1).
      { apply list_elem_of_fmap. exists (c, Returned d). split; [reflexivity|exact Hev]. }
      rewrite Hsplit in Hl.
      assert (Hend : last (pre.*1 ++ o :: post) = Some c).
      { rewrite Hl. apply last_snoc. }
      rewrite Hsplit in Hnd. apply NoDup_app in Hnd as (_ & Hdis & _).
      apply (Hdis c Hc).
      rewrite last_app in Hend.
      destruct (last (o :: post)) as [x|] eqn:Hx;
        [|apply last_None in Hx; discriminate Hx].
      injection Hend as ->. apply last_Some in Hx as [l' ->].
      apply elem_of_app. right. left.
    + apply list_elem_of_singleton in Hev. discriminate.
Qed.


Lemma capture_kind o p : capture_path o = Some p -> kind_of o = Capture.
Proof. destruct o; simpl; congruence. Qed.


(** ** Deciding observations on concrete traces *)

Lemma succeededb_spec o tr : succeededb o tr = true -> succeeded o tr.
Proof.
  unfold succeededb. intros H. apply bool_decide_eq_true_1 in H.
  apply Exists_exists in H as ([o' r] & Hin & Ho & Hr). simpl in *. subst o'.
  destruct r as [data|e]; [|discriminate]. exists data. exact Hin.
Defined.

Lemma all_succeeded (P : op -> Prop) `{!forall o, Decision (P o)} ops tr :
  Forall (fun o => P o -> succeededb o tr = true) ops ->
  forall o, o ∈ ops -> P o -> succeeded o tr.
Proof.
  intros Hall o Hin HP. apply succeededb_spec.
  rewrite Forall_forall in Hall. exact (Hall o Hin HP).
Defined.

Lemma returned_upto evs ops :
  Forall returned evs -> evs.*1 = ops ->
  exists ds, length ds = length ops /\
    evs = zip_with (fun o d => (o, Returned d)) ops ds.
Proof.
  intros Hall <-. destruct (returned_zip _ Hall) as (ds & Hlen & Hz).
  exists ds. rewrite length_fmap. split; [exact Hlen | exact Hz].
Qed.



Lemma capture_path_script_inj o c p :
  o ∈ script -> c ∈ script ->
  capture_path o = Some p -> capture_path c = Some p -> o = c.
Proof.
  intros Ho Hc Hop Hcp.
  assert (Hall : Forall (fun a => Forall (fun b =>
            capture_path a = capture_path b -> capture_path a <> None -> a = b)
            script) script).
  { apply (bool_decide_unpack _). vm_compute. exact I. }
  rewrite Forall_forall in Hall. specialize (Hall o Ho).
  rewrite Forall_forall in Hall. apply (Hall c Hc); congruence.
Qed.

Lemma before_elem o c ops : o ∈ before c ops -> o ∈ ops.
Proof.
  induction ops as [|a ops IH]; simpl; [trivial|].
  destruct (decide (a = c)); [inversion 1|].
  intros Hin. apply elem_of_cons in Hin as [->|Hin]; [left | right; auto].
Qed.

(** ** The requests of a whole process *)

Lemma NoDup_program : NoDup program.
Proof. apply (bool_decide_unpack _). vm_compute. exact I. Qed.

Lemma prefix_sublist_of (l1 l2 : list op) :
  l1 `prefix_of` l2 -> l1 `sublist_of` l2.
Proof. intros [k ->]. apply sublist_inserts_r. reflexivity. Qed.

(** The requests of a run are requests of the program, in its order. *)
Lemma trace_program w fs : (trace w fs).*1 `sublist_of` program.
Proof.
  unfold program.
  destruct (run_cases w fs)
    as [(e & Ht & _)
       |[(data & evs & e & rx & Hseq & Ht & _)
        |(data & evs & body & r & rc & rx & Hseq & Hbody & Ht & _)]];
    rewrite Ht.
  - apply sublist_skip, sublist_nil_l.
  - rewrite fmap_cons, fmap_app. apply sublist_skip, sublist_app.
    + apply prefix_sublist_of, (sequential_prefix _ _ _ Hseq).
    + apply sublist_inserts_l. apply sublist_cons. reflexivity.
  - rewrite fmap_cons, !fmap_app. apply sublist_skip.
    repeat apply sublist_app.
    + apply prefix_sublist_of, (sequential_prefix _ _ _ Hseq).
    + apply prefix_sublist_of, (sequential_prefix _ _ _ Hbody).
    + reflexivity.
Qed.

(** Each request of the program is made at most once in a run. *)
Lemma NoDup_trace w fs : NoDup (trace w fs).*1.
Proof. exact (sublist_NoDup _ _ NoDup_program (trace_program w fs)). Qed.

Lemma answer_unique (tr : list event) o r1 r2 :
  NoDup tr.*1 -> (o, r1) ∈ tr -> (o, r2) ∈ tr -> r1 = r2.
Proof.
  induction tr as [|[o' r'] tr IH]; intros Hnd H1 H2; [inversion H1|].
  rewrite fmap_cons in Hnd. apply NoDup_cons in Hnd as [Hnotin Hnd].
  assert (Hfst : forall r, (o, r) ∈ tr -> o ∈ tr.*1).
  { intros r Hin. apply list_elem_of_fmap. exists (o, r). split; [reflexivity|exact Hin]. }
  apply elem_of_cons in H1 as [E1|H1]; apply elem_of_cons in H2 as [E2|H2].
  - congruence.
  - injection E1 as -> ->. destruct (Hnotin (Hfst _ H2)).
  - injection E2 as -> ->. destruct (Hnotin (Hfst _ H1)).
  - exact (IH Hnd H1 H2).
Qed.

(** The disk after a run is the disk found with the captures of the trace
    written, in order. *)
Lemma disk_files_after w fs : disk w fs = files_after (trace w fs) fs.
Proof.
  destruct (run_cases w fs)
    as [(e & Ht & Hd & _)
       |[(data & evs & e & rx & Hseq & Ht & Hd & _)
        |(data & evs & body & r & rc & rx & Hseq & Hbody & Ht & Hd & _)]];
    rewrite Ht, Hd.
  - reflexivity.
  - symmetry. apply files_after_no_capture.
    constructor; [reflexivity|]. apply Forall_app. split.
    + exact (acquisition_no_capture _ _ Hseq).
    + repeat constructor.
  - change ((SyncPlaywrightEnter, Returned data) :: evs ++ body
              ++ [(BrowserClose, rc); (SyncPlaywrightExit, rx)])
      with ([(SyncPlaywrightEnter, Returned data)] ++ evs ++ body
              ++ [(BrowserClose, rc); (SyncPlaywrightExit, rx)]).
    rewrite !files_after_app.
    rewrite (files_after_no_capture [(SyncPlaywrightEnter, Returned data)])
      by (repeat constructor).
    rewrite (files_after_no_capture evs)
      by exact (acquisition_no_capture _ _ Hseq).
    symmetry. apply files_after_no_capture. repeat constructor.
Qed.

(** *** The engine does not see the disk *)







Lemma cleanup_keeps_failure rx rc e :
  exists e', after rx (after rc (Exception e)) = Exception e'.
Proof. destruct rx, rc; simpl; eauto. Qed.

Lemma filter_none (P : op -> Prop) `{!forall o, Decision (P o)} ops :
  Forall (fun o => ~ P o) ops -> filter P ops = [].
Proof.
  induction 1 as [|o ops Ho _ IH]; [reflexivity|].
  rewrite filter_cons_False by exact Ho. exact IH.
Qed.

Lemma filter_all (P : op -> Prop) `{!forall o, Decision (P o)} ops :
  Forall P ops -> filter P ops = ops.
Proof.
  induction 1 as [|o ops Ho _ IH]; [reflexivity|].
  rewrite filter_cons_True by exact Ho. f_equal. exact IH.
Qed.

Lemma prefix_members (l1 l2 : list op) :
  l1 `prefix_of` l2 -> Forall (fun o => o ∈ l2) l1.
Proof.
  intros [k ->]. apply Forall_forall. intros o Ho.
  apply elem_of_app. left. exact Ho.
Qed.

Lemma acquisition_outside evs r :
  sequential acquisition evs r -> Forall (fun o => o ∉ script) evs.*1.
Proof.
  intros Hseq. eapply Forall_impl.
  - exact (prefix_members _ _ (sequential_prefix _ _ _ Hseq)).
  - intros o. apply acquisition_script_disjoint.
Qed.

Lemma trace_request w fs o r : (o, r) ∈ trace w fs -> o ∈ program.
Proof.
  intros Hin. eapply elem_of_sublist; [|exact (trace_program w fs)].
  apply list_elem_of_fmap. exists (o, r). split; [reflexivity | exact Hin].
Qed.

Lemma capture_in_script o p :
  o ∈ program -> capture_path o = Some p -> o ∈ script /\ p ∈ captures.
Proof.
  intros Hin Hp. split.
  - assert (Hall : Forall (fun o => capture_path o <> None -> o ∈ script) program).
    { apply (bool_decide_unpack _). vm_compute. exact I. }
    rewrite Forall_forall in Hall. apply (Hall o Hin). congruence.
  - change captures with (omap capture_path program).
    apply list_elem_of_omap. exists o. split; assumption.
Qed.

(** A capture that returned leaves its image under its path, whatever was
    there before. *)
Lemma capture_written w fs c p data :
  capture_path c = Some p -> (c, Returned data) ∈ trace w fs ->
  disk w fs !! p = Some data.
Proof.
  intros Hp Hin. rewrite disk_files_after, files_after_lookup.
  destruct (capture_last_write p _ c data Hin Hp) as [d Hlw]. rewrite Hlw.
  destruct (last_write_capture _ _ _ Hlw) as (o & Ho & Hop).
  assert (o = c) as ->.
  { apply (capture_path_script_inj o c p); try assumption.
    - exact (proj1 (capture_in_script _ _ (trace_request _ _ _ _ Ho) Hop)).
    - exact (proj1 (capture_in_script _ _ (trace_request _ _ _ _ Hin) Hp)). }
  pose proof (answer_unique _ _ _ _ (NoDup_trace w fs) Ho Hin) as Heq.
  congruence.
Qed.




Lemma acquisition_returned evs :
  sequential acquisition evs (Value tt) ->
  exists d1 d2 d3,
    evs = [(ChromiumLaunch true, Returned d1); (NewContext, Returned d2);
           (NewPage, Returned d3)].
Proof.
  intros Hseq. destruct (sequential_value _ _ Hseq) as [Hops Hall].
  destruct (returned_upto _ _ Hall Hops) as (ds & Hlen & ->).
  destruct ds as [|d1 [|d2 [|d3 [|]]]]; try discriminate Hlen.
  exists d1, d2, d3. reflexivity.
Qed.

Lemma acquisition_raised evs e :
  sequential acquisition evs (Exception e) ->
  evs = [(ChromiumLaunch true, Raised e)] \/
  (exists d1, evs = [(ChromiumLaunch true, Returned d1); (NewContext, Raised e)]) \/
  (exists d1 d2,
     evs = [(ChromiumLaunch true, Returned d1); (NewContext, Returned d2);
            (NewPage, Raised e)]).
Proof.
  unfold acquisition. intros Hseq.
  inversion Hseq as [|o1 d1 ops1 evs1 r1 H1|]; subst; [|left; reflexivity].
  inversion H1 as [|o2 d2 ops2 evs2 r2 H2|]; subst;
    [|right; left; eauto].
  inversion H2 as [|o3 d3 ops3 evs3 r3 H3|]; subst;
    [|right; right; eauto].
  inversion H3.
Qed.

Ltac no_such_event H :=
  simpl in H;
  repeat (apply elem_of_cons in H as [H|H]; [discriminate H|]);
  inversion H.

(** ** Concrete runs *)

Example ideal_run :
  (trace ideal ∅).*1 = program /\ status ideal ∅ = 0%Z /\
  (map_to_list (disk ideal ∅)).*1 ≡ₚ captures.
Proof.
  split; [|split].
  - vm_compute. reflexivity.
  - vm_compute. reflexivity.
  - apply (bool_decide_unpack _). vm_compute. exact I.
Qed.

Example no_upload_run :
  (trace no_upload ∅).*1 =
    [SyncPlaywrightEnter] ++ acquisition
      ++ before (PageClick "text=Upload") script
      ++ [PageClick "text=Upload"; BrowserClose; SyncPlaywrightExit] /\
  status no_upload ∅ = 1%Z /\
  disk no_upload ∅ =
    {[ main_page_png := png; header_png := png; image_grid_png := png ]}.
Proof.
  split; [|split].
  - vm_compute. reflexivity.
  - vm_compute. reflexivity.
  - vm_compute. reflexivity.
Qed.

Example no_page_run :
  trace no_page_world ∅ =
    [ (SyncPlaywrightEnter, Returned png);
      (ChromiumLaunch true, Returned png);
      (NewContext, Returned png);
      (NewPage, Raised Error);
      (SyncPlaywrightExit, Returned png) ] /\
  status no_page_world ∅ = 1%Z /\ disk no_page_world ∅ = ∅.
Proof.
  split; [|split].
  - vm_compute. reflexivity.
  - vm_compute. reflexivity.
  - vm_compute. reflexivity.
Qed.

(** * The claims *)

(** ** C1 *)




(** ** C2 *)

(** C2: in every run, a step of the guarded sequence that was executed,
    whether it returned or raised, is followed by [browser.close()] before
    the run ends; when the step raised, [browser.close()] is the very next
    request.  The browser is released on both exits of the block. *)
Theorem C2_browser_released w fs o r :
  o ∈ script -> (o, r) ∈ trace w fs ->
  exists pre post rc rx,
    trace w fs =
      pre ++ (o, r) :: post
        ++ [(BrowserClose, rc); (SyncPlaywrightExit, rx)] /\
    (forall e, r = Raised e -> post = []).
Proof.
  intros Hs Hin. destruct r as [data|e].
  - destruct (script_event w fs _ Hin Hs)
      as (d0 & evs & body & r & rc & rx & _ & _ & Hev & Ht & _).
    apply list_elem_of_split in Hev as (b1 & b2 & ->).
    exists ((SyncPlaywrightEnter, Returned d0) :: evs ++ b1), b2, rc, rx.
    split; [|discriminate].
    rewrite Ht. simpl. rewrite <- !app_assoc. reflexivity.
  - destruct (failure_tail w fs o e Hs Hin)
      as (d0 & evs & past & rc & rx & _ & _ & _ & _ & Ht & _).
    exists ((SyncPlaywrightEnter, Returned d0) :: evs ++ past), [], rc, rx.
    split; [exact Ht | reflexivity].
Qed.

Lemma C2_browser_released_witness :
  PageClick "text=Upload" ∈ script /\
  (PageClick "text=Upload", Raised TimeoutError) ∈ trace no_upload ∅ /\
  exists pre post rc rx,
    trace no_upload ∅ =
      pre ++ (PageClick "text=Upload", Raised TimeoutError) :: post
        ++ [(BrowserClose, rc); (SyncPlaywrightExit, rx)] /\
    (forall e, Raised TimeoutError = Raised e -> post = []).
Proof.
  assert (Hs : PageClick "text=Upload" ∈ script).
  { apply (bool_decide_unpack _). vm_compute. exact I. }
  assert (Hin : (PageClick "text=Upload", Raised TimeoutError)
                  ∈ trace no_upload ∅).
  { apply (bool_decide_unpack _). vm_compute. exact I. }
  split; [exact Hs | split; [exact Hin|]].
  exact (C2_browser_released no_upload ∅ _ _ Hs Hin).
Defined.

(** ** C3 *)



(** ** C4 *)




(** ** C5 *)

(** C5: for every run in which the initial navigation or the wait for the
    "Visuals" marker raises, the disk is left as found and no capture is
    attempted, the run ends with an exception and a non-zero exit status,
    and the failed step is followed by [browser.close()] and by nothing
    else of the script. *)
Theorem C5_no_main_view w fs o e :
  o = PageGoto "http://localhost:5173" \/
    o = PageWaitForSelector "text=Visuals" ->
  (o, Raised e) ∈ trace w fs ->
  disk w fs = fs /\
  (forall c, kind_of c = Capture -> ~ executed c (trace w fs)) /\
  (exists e', fst (execute w fs) = Exception e') /\
  status w fs <> 0%Z /\
  exists pre rc rx,
    Forall returned pre /\
    trace w fs =
      pre ++ [(o, Raised e); (BrowserClose, rc); (SyncPlaywrightExit, rx)].
Proof.
  intros Ho Hin.
  assert (Hs : o ∈ script).
  { destruct Ho as [-> | ->]; apply (bool_decide_unpack _); vm_compute; exact I. }
  destruct (failure_tail w fs o e Hs Hin)
    as (d0 & evs & past & rc & rx & Hacq & Hret & Hpast & Hall & Ht & Hd & Hr).
  assert (Hquiet : Forall (fun c => kind_of c <> Capture)
                     (before o script ++ [o])).
  { destruct Ho as [-> | ->]; apply (bool_decide_unpack _); vm_compute; exact I. }
  apply Forall_app in Hquiet as [Hq1 Hq2]. rewrite Forall_singleton in Hq2.
  repeat split.
  - rewrite Hd. apply files_after_no_capture.
    apply Forall_forall. intros ev Hev.
    assert (Hop : ev.1 ∈ before o script).
    { rewrite <- Hpast. apply list_elem_of_fmap. eauto. }
    rewrite Forall_forall in Hq1. specialize (Hq1 _ Hop).
    destruct (capture_path ev.1) as [p|] eqn:Hp; [|reflexivity].
    destruct (Hq1 (capture_kind _ _ Hp)).
  - intros c Hk [r Hc].
    assert (Hops : c ∈ (trace w fs).*1).
    { apply list_elem_of_fmap. exists (c, r). split; [reflexivity | exact Hc]. }
    rewrite Ht, fmap_app, fmap_cons, fmap_app, Hacq, Hpast in Hops.
    apply elem_of_app in Hops as [Hops|Hops].
    + apply elem_of_cons in Hops as [->|Hops]; [discriminate Hk|].
      apply elem_of_app in Hops as [Hops|Hops].
      * clear Hc. revert c Hops Hk.
        apply (Forall_forall (fun c => kind_of c <> Capture) acquisition).
        apply (bool_decide_unpack _). vm_compute. exact I.
      * rewrite Forall_forall in Hq1. exact (Hq1 c Hops Hk).
    + apply elem_of_cons in Hops as [->|Hops]; [exact (Hq2 Hk)|].
      apply elem_of_cons in Hops as [->|Hops]; [discriminate Hk|].
      apply list_elem_of_singleton in Hops as ->. discriminate Hk.
  - rewrite Hr. apply cleanup_keeps_failure.
  - unfold status. rewrite Hr.
    destruct (cleanup_keeps_failure rx rc e) as [e' ->]. discriminate.
  - exists ((SyncPlaywrightEnter, Returned d0) :: evs ++ past), rc, rx.
    split; [|exact Ht].
    constructor; [eexists; reflexivity|]. apply Forall_app. split; assumption.
Qed.

Lemma C5_no_main_view_witness :
  (PageGoto "http://localhost:5173", Raised Error) ∈ trace unreachable ∅ /\
  disk unreachable ∅ = ∅ /\ status unreachable ∅ <> 0%Z.
Proof.
  assert (Hin : (PageGoto "http://localhost:5173", Raised Error)
                  ∈ trace unreachable ∅).
  { apply (bool_decide_unpack _). vm_compute. exact I. }
  destruct (C5_no_main_view unreachable ∅ _ Error (or_introl eq_refl) Hin)
    as (Hd & _ & _ & Hst & _).
  split; [exact Hin | split; [exact Hd | exact Hst]].
Defined.

(** ** C6 *)

(** C6: for every run in which all navigation, wait and capture steps
    succeed, the requests made are exactly those of the program, in its
    order, with one browser, one context and one page, and the
    interactions they perform are exactly the twelve of the specification,
    in its order. *)
Theorem C6_interaction_sequence w fs :
  (forall o, o ∈ script -> is_step o = true -> succeeded o (trace w fs)) ->
  (trace w fs).*1 = program /\
  interactions (trace w fs).*1 = interaction_sequence.
Proof.
  intros Hok.
  destruct (completion w fs (LocatorScreenshot "div[role='dialog']" image_modal_png))
    as (d0 & evs & body & rc & rx & Hacq & _ & Hbody & _ & Ht & _).
  { reflexivity. }
  { apply Hok; [|reflexivity]. apply (bool_decide_unpack _). vm_compute. exact I. }
  assert (Hops : (trace w fs).*1 = program).
  { rewrite Ht, fmap_cons, !fmap_app, Hacq, Hbody. reflexivity. }
  split; [exact Hops|]. rewrite Hops. vm_compute. reflexivity.
Qed.

Lemma C6_interaction_sequence_witness :
  (forall o, o ∈ script -> is_step o = true -> succeeded o (trace ideal ∅)) /\
  interactions (trace ideal ∅).*1 = interaction_sequence.
Proof.
  assert (Hok : forall o, o ∈ script -> is_step o = true ->
                  succeeded o (trace ideal ∅)).
  { apply (all_succeeded (fun o => is_step o = true)).
    apply (bool_decide_unpack _). vm_compute. exact I. }
  split; [exact Hok|]. exact (proj2 (C6_interaction_sequence ideal ∅ Hok)).
Defined.

(** ** C7 *)

(** C7: in every run the steps of the script that are executed are an
    initial part of the script, in program order; no request, and so no
    wait, is made more than once; and after a step that raised the only
    requests are [browser.close()] and the exit of the [with] block, so
    no interaction, wait or capture follows a failed wait. *)
Theorem C7_strictly_sequential w fs :
  filter (fun o => o ∈ script) (trace w fs).*1 `prefix_of` script /\
  NoDup (trace w fs).*1 /\
  (forall o e, o ∈ script -> (o, Raised e) ∈ trace w fs ->
     exists pre rc rx,
       Forall returned pre /\
       trace w fs =
         pre ++ [(o, Raised e); (BrowserClose, rc); (SyncPlaywrightExit, rx)]).
Proof.
  split; [|split].
  - destruct (run_cases w fs)
      as [(e & Ht & _)
         |[(data & evs & e & rx & Hseq & Ht & _)
          |(data & evs & body & r & rc & rx & Hseq & Hbody & Ht & _)]];
      rewrite Ht.
    + apply prefix_nil.
    + rewrite fmap_cons, fmap_app, filter_cons_False, filter_app
        by (apply (bool_decide_unpack _); vm_compute; exact I).
      rewrite (filter_none _ _ (acquisition_outside _ _ Hseq)).
      apply prefix_nil.
    + rewrite fmap_cons, !fmap_app, filter_cons_False, !filter_app
        by (apply (bool_decide_unpack _); vm_compute; exact I).
      rewrite (filter_none _ _ (acquisition_outside _ _ Hseq)).
      rewrite (filter_all _ _ (prefix_members _ _ (sequential_prefix _ _ _ Hbody))).
      simpl. rewrite app_nil_r. exact (sequential_prefix _ _ _ Hbody).
  - apply NoDup_trace.
  - intros o e Hs Hin.
    destruct (failure_tail w fs o e Hs Hin)
      as (d0 & evs & past & rc & rx & _ & Hret & _ & Hall & Ht & _).
    exists ((SyncPlaywrightEnter, Returned d0) :: evs ++ past), rc, rx.
    split; [|exact Ht].
    constructor; [eexists; reflexivity|]. apply Forall_app. split; assumption.
Qed.

Lemma C7_strictly_sequential_witness :
  PageWaitForSelector "h2" ∈ script /\
  (PageWaitForSelector "h2", Raised TimeoutError) ∈ trace no_dialog ∅ /\
  exists pre rc rx,
    Forall returned pre /\
    trace no_dialog ∅ =
      pre ++ [(PageWaitForSelector "h2", Raised TimeoutError);
              (BrowserClose, rc); (SyncPlaywrightExit, rx)].
Proof.
  assert (Hs : PageWaitForSelector "h2" ∈ script).
  { apply (bool_decide_unpack _). vm_compute. exact I. }
  assert (Hin : (PageWaitForSelector "h2", Raised TimeoutError)
                  ∈ trace no_dialog ∅).
  { apply (bool_decide_unpack _). vm_compute. exact I. }
  split; [exact Hs | split; [exact Hin|]].
  exact (proj2 (proj2 (C7_strictly_sequential no_dialog ∅)) _ _ Hs Hin).
Defined.

(** ** C8 *)

(** C8: for every run in which a step of the script raises, the run ends
    with an exception, hence with exit status 1: the exception of the step
    itself, unless a cleanup call raises in turn.  Nothing of the script
    runs after the failure, and the disk at the end is the disk as it was
    when the step raised: the files written before it, unchanged. *)
Theorem C8_no_local_recovery w fs o e :
  o ∈ script -> (o, Raised e) ∈ trace w fs ->
  exists pre rc rx,
    Forall returned pre /\
    trace w fs =
      pre ++ [(o, Raised e); (BrowserClose, rc); (SyncPlaywrightExit, rx)] /\
    disk w fs = files_after pre fs /\
    fst (execute w fs) = after rx (after rc (Exception e)) /\
    (exists e', fst (execute w fs) = Exception e') /\
    status w fs = 1%Z.
Proof.
  intros Hs Hin.
  destruct (failure_tail w fs o e Hs Hin)
    as (d0 & evs & past & rc & rx & Hacq & Hret & _ & Hall & Ht & Hd & Hr).
  exists ((SyncPlaywrightEnter, Returned d0) :: evs ++ past), rc, rx.
  repeat split.
  - constructor; [eexists; reflexivity|]. apply Forall_app. split; assumption.
  - exact Ht.
  - rewrite Hd.
    change ((SyncPlaywrightEnter, Returned d0) :: evs ++ past)
      with ([(SyncPlaywrightEnter, Returned d0)] ++ evs ++ past).
    rewrite !files_after_app.
    rewrite (files_after_no_capture [(SyncPlaywrightEnter, Returned d0)])
      by (repeat constructor).
    rewrite (files_after_no_capture evs); [reflexivity|].
    apply Forall_forall. intros ev Hev.
    assert (Hop : ev.1 ∈ acquisition).
    { rewrite <- Hacq. apply list_elem_of_fmap. eauto. }
    revert Hop. generalize (ev.1).
    apply (Forall_forall (fun c => capture_path c = None) acquisition).
    repeat constructor.
  - exact Hr.
  - rewrite Hr. apply cleanup_keeps_failure.
  - unfold status. rewrite Hr.
    destruct (cleanup_keeps_failure rx rc e) as [e' ->]. reflexivity.
Qed.

Lemma C8_no_local_recovery_witness :
  PageClick "text=Upload" ∈ script /\
  (PageClick "text=Upload", Raised TimeoutError) ∈ trace no_upload ∅ /\
  exists pre rc rx,
    Forall returned pre /\
    trace no_upload ∅ =
      pre ++ [(PageClick "text=Upload", Raised TimeoutError);
              (BrowserClose, rc); (SyncPlaywrightExit, rx)] /\
    disk no_upload ∅ = files_after pre ∅ /\
    fst (execute no_upload ∅) = after rx (after rc (Exception TimeoutError)) /\
    (exists e', fst (execute no_upload ∅) = Exception e') /\
    status no_upload ∅ = 1%Z.
Proof.
  assert (Hs : PageClick "text=Upload" ∈ script).
  { apply (bool_decide_unpack _). vm_compute. exact I. }
  assert (Hin : (PageClick "text=Upload", Raised TimeoutError)
                  ∈ trace no_upload ∅).
  { apply (bool_decide_unpack _). vm_compute. exact I. }
  split; [exact Hs | split; [exact Hin|]].
  exact (C8_no_local_recovery no_upload ∅ _ _ Hs Hin).
Defined.

(** ** C9 *)



(** ** C10 *)

(** C10: in every run, [browser.close()] is executed if and only if the
    page was created.  When the launch succeeds and the creation of the
    context or of the page raises, the guarded block is not entered: no
    request of the script is made, [browser.close()] is not called, and the
    failed request is followed only by the exit of the [with] block. *)
Theorem C10_release_scope w fs :
  (executed BrowserClose (trace w fs) <-> succeeded NewPage (trace w fs)) /\
  (forall o e,
     o = NewContext \/ o = NewPage ->
     succeeded (ChromiumLaunch true) (trace w fs) ->
     (o, Raised e) ∈ trace w fs ->
     ~ executed BrowserClose (trace w fs) /\
     (forall s, s ∈ script -> ~ executed s (trace w fs)) /\
     exists pre rx,
       Forall returned pre /\
       trace w fs = pre ++ [(o, Raised e); (SyncPlaywrightExit, rx)]).
Proof.
  destruct (run_cases w fs)
    as [(e0 & Ht & _)
       |[(data & evs & e0 & rx & Hseq & Ht & _)
        |(data & evs & body & r & rc & rx & Hseq & Hbody & Ht & _)]].
  - (* entering the with block raised *)
    rewrite Ht. split.
    + split; intros [x Hx]; no_such_event Hx.
    + intros o e _ [d Hd] _. no_such_event Hd.
  - (* the page was not created *)
    assert (Hnoclose : ~ executed BrowserClose (trace w fs)).
    { rewrite Ht. intros [x Hx].
      destruct (acquisition_raised _ _ Hseq)
        as [-> | [(d1 & ->) | (d1 & d2 & ->)]]; no_such_event Hx. }
    assert (Hnopage : ~ succeeded NewPage (trace w fs)).
    { rewrite Ht. intros [x Hx].
      destruct (acquisition_raised _ _ Hseq)
        as [-> | [(d1 & ->) | (d1 & d2 & ->)]]; no_such_event Hx. }
    split; [split; intros H; [destruct (Hnoclose H) | destruct (Hnopage H)]|].
    intros o e Ho _ Hin. split; [exact Hnoclose|]. split.
    + intros s Hs [x Hx].
      destruct (script_event w fs _ Hx Hs)
        as (d0 & evs' & body & r & rc & rx' & _ & _ & _ & Ht' & _).
      apply Hnoclose. exists rc. rewrite Ht'. right.
      apply elem_of_app. right. apply elem_of_app. right. left.
    + rewrite Ht in Hin |- *.
      destruct (acquisition_raised _ _ Hseq)
        as [-> | [(d1 & ->) | (d1 & d2 & ->)]]; simpl in Hin |- *.
      * destruct Ho as [-> | ->]; no_such_event Hin.
      * destruct Ho as [-> | ->]; [|no_such_event Hin].
        exists [(SyncPlaywrightEnter, Returned data);
                (ChromiumLaunch true, Returned d1)], rx.
        assert (e = e0) as ->.
        { repeat (apply elem_of_cons in Hin as [Hin|Hin];
                  [first [discriminate Hin | congruence]|]).
          inversion Hin. }
        split; [|reflexivity]. repeat constructor; eexists; reflexivity.
      * destruct Ho as [-> | ->]; [no_such_event Hin|].
        exists [(SyncPlaywrightEnter, Returned data);
                (ChromiumLaunch true, Returned d1);
                (NewContext, Returned d2)], rx.
        assert (e = e0) as ->.
        { repeat (apply elem_of_cons in Hin as [Hin|Hin];
                  [first [discriminate Hin | congruence]|]).
          inversion Hin. }
        split; [|reflexivity]. repeat constructor; eexists; reflexivity.
  - (* the guarded block was entered *)
    destruct (acquisition_returned _ Hseq) as (d1 & d2 & d3 & ->).
    assert (Hclose : executed BrowserClose (trace w fs)).
    { exists rc. rewrite Ht. right. apply elem_of_app. right.
      apply elem_of_app. right. left. }
    assert (Hpage : succeeded NewPage (trace w fs)).
    { exists d3. rewrite Ht. do 3 right. left. }
    split; [split; intros _; assumption|].
    intros o e Ho _ Hin. exfalso. rewrite Ht in Hin.
    repeat (apply elem_of_cons in Hin as [Hin|Hin];
            [destruct Ho as [-> | ->]; discriminate Hin|]).
    apply elem_of_app in Hin as [Hin|Hin].
    + pose proof (sequential_executed _ _ _ _ Hbody Hin) as Hs. simpl in Hs.
      revert Hs. apply acquisition_script_disjoint.
      destruct Ho as [-> | ->]; apply (bool_decide_unpack _); vm_compute; exact I.
    + destruct Ho as [-> | ->]; no_such_event Hin.
Qed.

Lemma C10_release_scope_witness :
  succeeded (ChromiumLaunch true) (trace no_page_world ∅) /\
  (NewPage, Raised Error) ∈ trace no_page_world ∅ /\
  ~ executed BrowserClose (trace no_page_world ∅).
Proof.
  assert (Hlaunch : succeeded (ChromiumLaunch true) (trace no_page_world ∅)).
  { apply succeededb_spec. vm_compute. reflexivity. }
  assert (Hin : (NewPage, Raised Error) ∈ trace no_page_world ∅).
  { apply (bool_decide_unpack _). vm_compute. exact I. }
  split; [exact Hlaunch | split; [exact Hin|]].
  exact (proj1 (proj2 (C10_release_scope no_page_world ∅) NewPage Error
                  (or_intror eq_refl) Hlaunch Hin)).
Defined.

(** * Further properties of the script *)

(** ** The [with] block, lines 39-40 *)

Lemma enter_answer w fs r :
  (SyncPlaywrightEnter, r) ∈ trace w fs -> head (trace w fs) = Some (SyncPlaywrightEnter, r).
Proof.
  intros Hin.
  assert (Hhd : exists r0, head (trace w fs) = Some (SyncPlaywrightEnter, r0)).
  { destruct (run_cases w fs)
      as [(e & Ht & _)
         |[(data & evs & e & rx & _ & Ht & _)
          |(data & evs & body & r' & rc & rx & _ & _ & Ht & _)]];
      rewrite Ht; eauto. }
  destruct Hhd as [r0 Hr0]. rewrite Hr0. do 2 f_equal.
  apply (answer_unique (trace w fs) SyncPlaywrightEnter r0 r (NoDup_trace w fs));
    [|exact Hin].
  destruct (trace w fs) as [|ev tr]; [discriminate|].
  injection Hr0 as ->. left.
Qed.

(** X1: for every run in which entering [sync_playwright()] raises, that
    is the only request made: the function [run] is not called, the disk is
    left as found, and the process ends with that exception, status 1. *)
Theorem X1_driver_not_started w fs e :
  (SyncPlaywrightEnter, Raised e) ∈ trace w fs ->
  trace w fs = [(SyncPlaywrightEnter, Raised e)] /\
  disk w fs = fs /\
  fst (execute w fs) = Exception e /\
  status w fs = 1%Z.
Proof.
  intros Hin. apply enter_answer in Hin. unfold status.
  destruct (run_cases w fs)
    as [(e0 & Ht & Hd & Hr)
       |[(data & evs & e0 & rx & _ & Ht & _)
        |(data & evs & body & r' & rc & rx & _ & _ & Ht & _)]];
    rewrite Ht in Hin; simpl in Hin; try discriminate Hin.
  injection Hin as ->. rewrite Ht, Hd, Hr. repeat split.
Qed.

Lemma X1_driver_not_started_witness :
  (SyncPlaywrightEnter, Raised Error) ∈ trace no_driver ∅ /\
  trace no_driver ∅ = [(SyncPlaywrightEnter, Raised Error)] /\
  status no_driver ∅ = 1%Z.
Proof.
  assert (Hin : (SyncPlaywrightEnter, Raised Error) ∈ trace no_driver ∅).
  { apply (bool_decide_unpack _). vm_compute. exact I. }
  destruct (X1_driver_not_started no_driver ∅ Error Hin) as (Ht & _ & _ & Hs).
  split; [exact Hin | split; [exact Ht | exact Hs]].
Defined.

(** X2: for every run in which [sync_playwright()] was entered, leaving
    the [with] block is the last request of the process and is made once,
    however [run] ended; when it raises, its exception is the one the
    process ends with. *)
Theorem X2_with_block_left w fs :
  succeeded SyncPlaywrightEnter (trace w fs) ->
  exists pre rx,
    trace w fs = pre ++ [(SyncPlaywrightExit, rx)] /\
    (SyncPlaywrightExit ∉ pre.*1) /\
    (forall e, rx = Raised e -> fst (execute w fs) = Exception e).
Proof.
  intros [d Hin]. apply enter_answer in Hin.
  assert (Hform : exists pre rx sofar,
            trace w fs = pre ++ [(SyncPlaywrightExit, rx)] /\
            fst (execute w fs) = after rx sofar).
  { destruct (run_cases w fs)
      as [(e0 & Ht & _)
         |[(data & evs & e0 & rx & _ & Ht & _ & Hr)
          |(data & evs & body & r' & rc & rx & _ & _ & Ht & _ & Hr)]].
    - rewrite Ht in Hin. discriminate Hin.
    - exists ((SyncPlaywrightEnter, Returned data) :: evs), rx, (Exception e0).
      split; [exact Ht | exact Hr].
    - exists ((SyncPlaywrightEnter, Returned data) :: evs ++ body
                ++ [(BrowserClose, rc)]), rx, (after rc r').
      split; [|exact Hr]. rewrite Ht. simpl. rewrite <- !app_assoc. reflexivity. }
  destruct Hform as (pre & rx & sofar & Ht & Hr).
  exists pre, rx. split; [exact Ht|]. split.
  - pose proof (NoDup_trace w fs) as Hnd. rewrite Ht, fmap_app in Hnd.
    apply NoDup_app in Hnd as (_ & Hdis & _).
    intros Hpre. apply (Hdis _ Hpre). left.
  - intros e ->. exact Hr.
Qed.

Lemma X2_with_block_left_witness :
  succeeded SyncPlaywrightEnter (trace no_browser ∅) /\
  exists pre rx,
    trace no_browser ∅ = pre ++ [(SyncPlaywrightExit, rx)] /\
    (SyncPlaywrightExit ∉ pre.*1) /\
    (forall e, rx = Raised e -> fst (execute no_browser ∅) = Exception e).
Proof.
  assert (Hin : succeeded SyncPlaywrightEnter (trace no_browser ∅)).
  { apply succeededb_spec. vm_compute. reflexivity. }
  split; [exact Hin | exact (X2_with_block_left no_browser ∅ Hin)].
Defined.

(** ** The result of the process *)

Lemma raised_exns_returned evs : Forall returned evs -> raised_exns evs = [].
Proof.
  induction 1 as [|[o r] evs [d Hd] _ IH]; [reflexivity|].
  simpl in Hd. subst r. exact IH.
Qed.

Lemma raised_exns_app evs1 evs2 :
  raised_exns (evs1 ++ evs2) = raised_exns evs1 ++ raised_exns evs2.
Proof. apply omap_app. Qed.

Lemma returned_app_raised pre o e post :
  ~ Forall returned (pre ++ (o, Raised e) :: post).
Proof.
  intros Hall. apply Forall_app in Hall as [_ Hall].
  apply Forall_cons in Hall as [[d Hd] _]. discriminate Hd.
Qed.

(** X3: the process ends with status 0 exactly when every request of the
    program, from entering [sync_playwright()] to leaving it, was made and
    returned; a request that raises, wherever it is, gives a non-zero
    status. *)
Theorem X3_status_zero w fs :
  status w fs = 0%Z <->
  (trace w fs).*1 = program /\ Forall returned (trace w fs).
Proof.
  unfold status.
  destruct (run_cases w fs)
    as [(e0 & Ht & _ & Hr)
       |[(data & evs & e0 & rx & Hseq & Ht & _ & Hr)
        |(data & evs & body & r & rc & rx & Hseq & Hbody & Ht & _ & Hr)]];
    rewrite Hr, Ht.
  - split; [discriminate|]. intros [_ Hall].
    destruct (returned_app_raised [] _ _ [] Hall).
  - split; [destruct rx; discriminate|]. intros [_ Hall].
    destruct (sequential_exception _ _ _ Hseq) as (pre & o & post & -> & _).
    exfalso.
    apply (returned_app_raised ((SyncPlaywrightEnter, Returned data) :: pre)
             o e0 [(SyncPlaywrightExit, rx)]).
    simpl in Hall |- *. rewrite <- app_assoc in Hall. exact Hall.
  - destruct (sequential_value _ _ Hseq) as [Hacq Hret].
    destruct r as [[]|e].
    + destruct (sequential_value _ _ Hbody) as [Hops Hall]. split.
      * intros Hz. split.
        -- rewrite fmap_cons, !fmap_app, Hacq, Hops. reflexivity.
        -- constructor; [eexists; reflexivity|].
           repeat (apply Forall_app; split); try assumption.
           destruct rc as [dc|ec]; [|destruct rx; discriminate Hz].
           destruct rx as [dx|ex]; [|discriminate Hz].
           repeat constructor; eexists; reflexivity.
      * intros [_ Hall'].
        apply Forall_cons in Hall' as [_ Hall'].
        apply Forall_app in Hall' as [_ Hall'].
        apply Forall_app in Hall' as [_ Hall'].
        apply Forall_cons in Hall' as [[dc Hc] Hall'].
        apply Forall_cons in Hall' as [[dx Hx] _].
        simpl in Hc, Hx. subst rc rx. reflexivity.
    + split.
      * destruct (cleanup_keeps_failure rx rc e) as [e' ->]. discriminate.
      * intros [_ Hall]. exfalso.
        destruct (sequential_exception _ _ _ Hbody) as (pre & o & post & -> & _).
        apply (returned_app_raised
                 ((SyncPlaywrightEnter, Returned data) :: evs ++ pre) o e
                 [(BrowserClose, rc); (SyncPlaywrightExit, rx)]).
        simpl in Hall |- *. rewrite <- !app_assoc in Hall |- *. exact Hall.
Qed.

Lemma result_of_cleanup pre rc rx sofar :
  result_of pre = sofar ->
  result_of (pre ++ [(BrowserClose, rc); (SyncPlaywrightExit, rx)])
    = after rx (after rc sofar).
Proof.
  unfold result_of. intros <-. rewrite raised_exns_app.
  destruct rc as [dc|ec], rx as [dx|ex]; simpl;
    rewrite ?app_nil_r, ?last_app; reflexivity.
Qed.

(** X4: in every run the process ends with the exception raised last, and
    returns normally when no request raised.  So an exception of
    [browser.close()] or of leaving the [with] block replaces the
    exception of a failed step, as the [finally] clause of Python does. *)
Theorem X4_last_exception_wins w fs :
  fst (execute w fs) = result_of (trace w fs).
Proof.
  destruct (run_cases w fs)
    as [(e0 & Ht & _ & Hr)
       |[(data & evs & e0 & rx & Hseq & Ht & _ & Hr)
        |(data & evs & body & r & rc & rx & Hseq & Hbody & Ht & _ & Hr)]];
    rewrite Hr, Ht.
  - reflexivity.
  - destruct (sequential_exception _ _ _ Hseq)
      as (pre & o & post & -> & Hall & _).
    unfold result_of.
    change (raised_exns ((SyncPlaywrightEnter, Returned data)
                           :: (pre ++ [(o, Raised e0)])
                           ++ [(SyncPlaywrightExit, rx)]))
      with (raised_exns ((pre ++ [(o, Raised e0)])
                           ++ [(SyncPlaywrightExit, rx)])).
    rewrite !raised_exns_app, (raised_exns_returned _ Hall).
    destruct rx; reflexivity.
  - destruct (sequential_value _ _ Hseq) as [_ Hret].
    change ((SyncPlaywrightEnter, Returned data) :: evs ++ body
              ++ [(BrowserClose, rc); (SyncPlaywrightExit, rx)])
      with (((SyncPlaywrightEnter, Returned data) :: evs) ++ body
              ++ [(BrowserClose, rc); (SyncPlaywrightExit, rx)]).
    rewrite (app_assoc _ body). symmetry. apply result_of_cleanup.
    unfold result_of. rewrite raised_exns_app.
    rewrite (raised_exns_returned ((SyncPlaywrightEnter, Returned data) :: evs))
      by (constructor; [eexists; reflexivity | exact Hret]).
    destruct r as [[]|e].
    + destruct (sequential_value _ _ Hbody) as [_ Hall].
      rewrite (raised_exns_returned _ Hall). reflexivity.
    + destruct (sequential_exception _ _ _ Hbody)
        as (pre & o & post & -> & Hall & _).
      rewrite raised_exns_app, (raised_exns_returned _ Hall). reflexivity.
Qed.

(** ** Acquiring the browser, lines 4-6 *)

Lemma not_acquisition o :
  o ∈ acquisition ->
  o <> SyncPlaywrightEnter /\ o <> SyncPlaywrightExit /\ o <> BrowserClose.
Proof.
  revert o. apply Forall_forall.
  apply (bool_decide_unpack _). vm_compute. exact I.
Qed.

(** X5: for every run in which the launch of the browser, the creation of
    the context or the creation of the page raises, no file is written,
    [browser.close()] is not called, the failed request is followed only by
    leaving the [with] block, and the process ends with an exception,
    status 1. *)
Theorem X5_no_browser_no_artifacts w fs o e :
  o ∈ acquisition -> (o, Raised e) ∈ trace w fs ->
  disk w fs = fs /\
  ~ executed BrowserClose (trace w fs) /\
  status w fs = 1%Z /\
  exists pre rx,
    Forall returned pre /\
    trace w fs = pre ++ [(o, Raised e); (SyncPlaywrightExit, rx)] /\
    fst (execute w fs) = after rx (Exception e).
Proof.
  intros Ho Hin. destruct (not_acquisition o Ho) as (Hne1 & Hne2 & Hne3).
  unfold status.
  destruct (run_cases w fs)
    as [(e0 & Ht & _ & Hr)
       |[(data & evs & e0 & rx & Hseq & Ht & Hd & Hr)
        |(data & evs & body & r & rc & rx & Hseq & Hbody & Ht & _ & Hr)]];
    rewrite Ht in Hin.
  - apply list_elem_of_singleton in Hin. congruence.
  - apply elem_of_cons in Hin as [Hin|Hin]; [congruence|].
    apply elem_of_app in Hin as [Hin|Hin];
      [|apply list_elem_of_singleton in Hin; congruence].
    destruct (sequential_raised _ _ _ _ _ Hseq Hin)
      as (Heq & pre & post & -> & Hall & _).
    injection Heq as ->.
    split; [exact Hd|]. split; [|split].
    + intros [x Hx]. rewrite Ht in Hx.
      apply elem_of_cons in Hx as [Hx|Hx]; [discriminate Hx|].
      apply elem_of_app in Hx as [Hx|Hx];
        [|apply list_elem_of_singleton in Hx; discriminate Hx].
      pose proof (sequential_executed _ _ _ _ Hseq Hx) as Hop. simpl in Hop.
      destruct (not_acquisition _ Hop) as (_ & _ & Hc). congruence.
    + rewrite Hr. destruct rx; reflexivity.
    + exists ((SyncPlaywrightEnter, Returned data) :: pre), rx.
      split; [|split].
      * constructor; [eexists; reflexivity | exact Hall].
      * rewrite Ht. simpl. rewrite <- app_assoc. reflexivity.
      * exact Hr.
  - exfalso. destruct (sequential_value _ _ Hseq) as [_ Hret].
    apply elem_of_cons in Hin as [Hin|Hin]; [congruence|].
    apply elem_of_app in Hin as [Hin|Hin];
      [exact (returned_not_raised _ _ _ Hret Hin)|].
    apply elem_of_app in Hin as [Hin|Hin].
    + exact (acquisition_script_disjoint _ Ho
               (sequential_executed _ _ _ _ Hbody Hin)).
    + apply elem_of_cons in Hin as [Hin|Hin]; [congruence|].
      apply list_elem_of_singleton in Hin. congruence.
Qed.

Lemma X5_no_browser_no_artifacts_witness :
  ChromiumLaunch true ∈ acquisition /\
  (ChromiumLaunch true, Raised Error) ∈ trace no_browser ∅ /\
  disk no_browser ∅ = ∅ /\
  ~ executed BrowserClose (trace no_browser ∅) /\
  status no_browser ∅ = 1%Z.
Proof.
  assert (Ho : ChromiumLaunch true ∈ acquisition) by left.
  assert (Hin : (ChromiumLaunch true, Raised Error) ∈ trace no_browser ∅).
  { apply (bool_decide_unpack _). vm_compute. exact I. }
  destruct (X5_no_browser_no_artifacts no_browser ∅ _ Error Ho Hin)
    as (Hd & Hc & Hs & _).
  repeat split; assumption.
Defined.

(** ** The files written, lines 12-34 *)

Lemma written_paths_app evs1 evs2 :
  written_paths (evs1 ++ evs2) = written_paths evs1 ++ written_paths evs2.
Proof. apply omap_app. Qed.

Lemma written_paths_no_capture evs :
  Forall (fun ev => capture_path ev.1 = None) evs -> written_paths evs = [].
Proof.
  induction 1 as [|[o r] evs Ho _ IH]; [reflexivity|].
  simpl in Ho. unfold written_paths. simpl. rewrite Ho.
  destruct (is_returned r); exact IH.
Qed.

Lemma sequential_written ops evs r :
  sequential ops evs r ->
  written_paths evs `prefix_of` omap capture_path ops.
Proof.
  induction 1 as [|o data ops evs r _ IH|o e ops].
  - reflexivity.
  - unfold written_paths in *. simpl.
    destruct (capture_path o); [apply prefix_cons|]; exact IH.
  - apply prefix_nil.
Qed.

Lemma files_after_written evs : forall fs,
  dom (files_after evs fs) = dom fs ∪ list_to_set (written_paths evs).
Proof.
  induction evs as [|[o r] evs IH]; intros fs.
  - simpl. rewrite (right_id_L ∅ (∪)). reflexivity.
  - change (dom (files_after evs (store fs (o, r))) =
            dom fs ∪ list_to_set (written_paths ((o, r) :: evs))).
    rewrite IH. unfold written_paths, store. simpl.
    destruct r as [data|e]; simpl; [|reflexivity].
    destruct (capture_path o) as [p|]; [|reflexivity].
    simpl. rewrite dom_insert_L, (comm_L (∪) {[p]}), <- (assoc_L (∪)).
    reflexivity.
Qed.

(** X6: in every run the files written are the first n of the five
    capture paths, in program order and without a gap, for some n; and the
    names on the disk afterward are those found plus those written, so no
    file is removed and none appears under another name. *)
Theorem X6_files_written_in_order w fs :
  written_paths (trace w fs) `prefix_of` captures /\
  dom (disk w fs) = dom fs ∪ list_to_set (written_paths (trace w fs)).
Proof.
  split.
  - destruct (run_cases w fs)
      as [(e0 & Ht & _)
         |[(data & evs & e0 & rx & Hseq & Ht & _)
          |(data & evs & body & r & rc & rx & Hseq & Hbody & Ht & _)]];
      rewrite Ht.
    + apply prefix_nil.
    + change ((SyncPlaywrightEnter, Returned data) :: evs
                ++ [(SyncPlaywrightExit, rx)])
        with ([(SyncPlaywrightEnter, Returned data)] ++ evs
                ++ [(SyncPlaywrightExit, rx)]).
      rewrite !written_paths_app.
      rewrite (written_paths_no_capture evs)
        by exact (acquisition_no_capture _ _ Hseq).
      rewrite !written_paths_no_capture by (repeat constructor).
      apply prefix_nil.
    + change ((SyncPlaywrightEnter, Returned data) :: evs ++ body
                ++ [(BrowserClose, rc); (SyncPlaywrightExit, rx)])
        with ([(SyncPlaywrightEnter, Returned data)] ++ evs ++ body
                ++ [(BrowserClose, rc); (SyncPlaywrightExit, rx)]).
      rewrite !written_paths_app.
      rewrite (written_paths_no_capture evs)
        by exact (acquisition_no_capture _ _ Hseq).
      rewrite (written_paths_no_capture [(BrowserClose, rc); (SyncPlaywrightExit, rx)])
        by (repeat constructor).
      rewrite (written_paths_no_capture [(SyncPlaywrightEnter, Returned data)])
        by (repeat constructor).
      simpl. rewrite app_nil_r. exact (sequential_written _ _ _ Hbody).
  - rewrite disk_files_after. apply files_after_written.
Qed.

(** X7: for every run and every path, if no capture to that path returned
    in the run, the run leaves the path as it found it: same content, or
    still absent. *)
Theorem X7_other_paths_untouched w fs p :
  (forall c data, capture_path c = Some p -> (c, Returned data) ∉ trace w fs) ->
  disk w fs !! p = fs !! p.
Proof.
  intros Hnone. rewrite disk_files_after, files_after_lookup.
  destruct (last_write p (trace w fs)) as [d|] eqn:Hlw; [|reflexivity].
  destruct (last_write_capture _ _ _ Hlw) as (o & Ho & Hop).
  destruct (Hnone o d Hop Ho).
Qed.

Lemma X7_other_paths_untouched_witness :
  (forall c data, capture_path c = Some upload_form_png ->
     (c, Returned data) ∉ trace no_upload {[ upload_form_png := png ]}) /\
  disk no_upload {[ upload_form_png := png ]} !! upload_form_png = Some png.
Proof.
  assert (Hnone : forall c data, capture_path c = Some upload_form_png ->
            (c, Returned data) ∉ trace no_upload {[ upload_form_png := png ]}).
  { intros c data Hc Hin.
    assert (Hall : Forall (fun ev : event =>
                             capture_path ev.1 <> Some upload_form_png)
                     (trace no_upload {[ upload_form_png := png ]})).
    { apply (bool_decide_unpack _). vm_compute. exact I. }
    rewrite Forall_forall in Hall. exact (Hall _ Hin Hc). }
  split; [exact Hnone|].
  rewrite (X7_other_paths_untouched no_upload _ upload_form_png Hnone).
  apply lookup_singleton_eq.
Defined.

(** ** Locators, lines 15-34 *)

Lemma sequential_split b1 : forall ops ev b2 r,
  sequential ops (b1 ++ ev :: b2) r ->
  Forall returned b1 /\ exists rest, ops = b1.*1 ++ ev.1 :: rest.
Proof.
  induction b1 as [|a b1 IH]; intros ops ev b2 r Hseq.
  - split; [constructor|]. simpl in Hseq.
    inversion Hseq; subst; simpl; eauto.
  - simpl in Hseq. inversion Hseq as [|o data ops' evs' r' Hrest|o e ops']; subst.
    + destruct (IH _ _ _ _ Hrest) as [Hall [rest ->]]. split.
      * constructor; [eexists; reflexivity | exact Hall].
      * exists rest. reflexivity.
    + destruct b1; discriminate.
Qed.

Lemma locator_in_script o sel :
  o ∈ program -> locator_of o = Some sel ->
  o ∈ script /\ last (before o script) = Some (PageLocator sel).
Proof.
  intros Hin Hsel.
  assert (Hall : Forall (fun o => locator_of o <> None ->
                           o ∈ script /\ locator_built o = true) program).
  { apply (bool_decide_unpack _). vm_compute. exact I. }
  rewrite Forall_forall in Hall.
  destruct (Hall o Hin) as [Hs Hb]; [congruence|].
  split; [exact Hs|]. unfold locator_built in Hb. rewrite Hsel in Hb.
  exact (bool_decide_eq_true_1 _ Hb).
Qed.

(** X8: in every run, a capture of a locator or a click on a locator is
    made right after the request that built a locator for the same
    selector, and that request returned: the script never acts on a
    locator other than the one it has just built. *)
Theorem X8_locator_just_built w fs o r sel :
  locator_of o = Some sel -> (o, r) ∈ trace w fs ->
  exists pre data post,
    trace w fs = pre ++ (PageLocator sel, Returned data) :: (o, r) :: post.
Proof.
  intros Hsel Hin.
  destruct (locator_in_script o sel (trace_request _ _ _ _ Hin) Hsel)
    as [Hs Hlast].
  destruct (script_event w fs _ Hin Hs)
    as (d0 & evs & body & r' & rc & rx & _ & Hbody & Hev & Ht & _).
  apply list_elem_of_split in Hev as (b1 & b2 & ->).
  destruct (sequential_split _ _ _ _ _ Hbody) as [Hall [rest Hsplit]].
  simpl in Hsplit.
  assert (Hb : before o script = b1.*1).
  { pose proof NoDup_script as Hnd. rewrite Hsplit in Hnd |- *.
    apply NoDup_before, Hnd. }
  rewrite Hb in Hlast.
  apply last_Some in Hlast as [ops' Hops].
  destruct (returned_upto _ _ Hall Hops) as (ds & Hlen & Hz).
  rewrite length_app in Hlen. simpl in Hlen.
  assert (Hds : exists ds' d, ds = ds' ++ [d] /\ length ds' = length ops').
  { destruct (decide (ds = [])) as [->|Hne]; [simpl in Hlen; lia|].
    destruct (exists_last Hne) as (ds' & d & ->).
    exists ds', d. split; [reflexivity|].
    rewrite length_app in Hlen. simpl in Hlen. lia. }
  destruct Hds as (ds' & d & -> & Hlen').
  rewrite zip_with_app in Hz by (symmetry; exact Hlen'). simpl in Hz.
  exists ((SyncPlaywrightEnter, Returned d0) :: evs
            ++ zip_with (fun o d => (o, Returned d)) ops' ds'),
    d, (b2 ++ [(BrowserClose, rc); (SyncPlaywrightExit, rx)]).
  rewrite Ht, Hz. simpl. rewrite <- !app_assoc. reflexivity.
Qed.

Lemma X8_locator_just_built_witness :
  exists pre data post,
    trace no_header ∅ =
      pre ++ (PageLocator "header", Returned data)
        :: (LocatorScreenshot "header" header_png, Raised TimeoutError) :: post.
Proof.
  apply (X8_locator_just_built no_header ∅).
  - reflexivity.
  - apply (bool_decide_unpack _). vm_compute. exact I.
Defined.

(** ** A failure of the cleanup, lines 36-37 *)

(** X9: for every run in which every step of the script succeeded and
    [browser.close()] raises, the five image files are all on the disk and
    yet the process ends with an exception, status 1: a non-zero status
    does not mean that captures are missing. *)
Theorem X9_close_raises_after_success w fs e :
  (forall o, o ∈ script -> is_step o = true -> succeeded o (trace w fs)) ->
  (BrowserClose, Raised e) ∈ trace w fs ->
  (forall p, p ∈ captures -> is_Some (disk w fs !! p)) /\
  status w fs = 1%Z /\
  exists rx, fst (execute w fs) = after rx (Exception e).
Proof.
  intros Hok Hclose.
  destruct (completion w fs (LocatorScreenshot "div[role='dialog']" image_modal_png))
    as (d0 & evs & body & rc & rx & _ & _ & _ & _ & Ht & _ & Hr).
  { reflexivity. }
  { apply Hok; [|reflexivity]. apply (bool_decide_unpack _). vm_compute. exact I. }
  assert (rc = Raised e) as ->.
  { apply (answer_unique (trace w fs) BrowserClose _ _ (NoDup_trace w fs));
      [|exact Hclose].
    rewrite Ht. right. apply elem_of_app. right. apply elem_of_app. right. left. }
  split; [|split].
  - intros p Hp. unfold captures in Hp.
    apply list_elem_of_omap in Hp as (c & Hc & Hpath).
    assert (Hstep : is_step c = true).
    { unfold is_step. rewrite (capture_kind _ _ Hpath). reflexivity. }
    destruct (Hok c Hc Hstep) as [data Hin].
    rewrite (capture_written w fs c p data Hpath Hin). eauto.
  - unfold status. rewrite Hr. destruct rx; reflexivity.
  - exists rx. exact Hr.
Qed.

Lemma X9_close_raises_after_success_witness :
  (forall o, o ∈ script -> is_step o = true -> succeeded o (trace close_fails ∅)) /\
  (BrowserClose, Raised Error) ∈ trace close_fails ∅ /\
  size (disk close_fails ∅) = 5 /\
  status close_fails ∅ = 1%Z.
Proof.
  assert (Hok : forall o, o ∈ script -> is_step o = true ->
                  succeeded o (trace close_fails ∅)).
  { apply (all_succeeded (fun o => is_step o = true)).
    apply (bool_decide_unpack _). vm_compute. exact I. }
  assert (Hin : (BrowserClose, Raised Error) ∈ trace close_fails ∅).
  { apply (bool_decide_unpack _). vm_compute. exact I. }
  destruct (X9_close_raises_after_success close_fails ∅ Error Hok Hin)
    as (_ & Hs & _).
  split; [exact Hok | split; [exact Hin | split; [|exact Hs]]].
  vm_compute. reflexivity.
Defined.
